(** * Lunch Lotto, [popup.js]: normalisation, filtering, wheel and history

    A shallow embedding of the data transformations of [popup.js]:
    [milesToMeters], the body of [fetchRestaurants] (element filter, price
    level heuristic, price filter, name deduplication), [updateWheel],
    [saveToHistory] and [addRestaurantToWheel].

    Conventions.
    - A JavaScript string is a [string]; each [ascii] stands for one code
      unit below 256.
    - A JavaScript number that is only compared, or passed to [Math.min] and
      [Math.max], is a [number]: NaN, an infinity, or the exact rational
      value of a finite double.  A number that is multiplied ([settings.distance])
      or merely stored (coordinates, identifiers) is a binary64 [float].
    - An object whose keys are fixed by the literal that builds it is a
      record; an object that is spread or received from elsewhere is a
      [gmap string value].
    - The globals [options] and [restaurantHistory] are fields of [state],
      threaded explicitly.  DOM calls, [console.log], [chrome.storage] writes
      and [drawWheel] do not change these fields and are left out, and so is
      [restaurantDetails], which is written and never read here. *)

From Stdlib Require Import ZArith QArith Qabs Qminmax Qpower Lqa Ascii.
From Stdlib Require Import Floats.PrimFloat Floats.SpecFloat Floats.FloatOps Floats.FloatAxioms.
From stdpp Require Import gmap strings list fin_maps.

Set Warnings "-inexact-float,-clear-no-such-hyp".
Close Scope Q_scope.

(** ** Code units and string primitives *)

Module JsString.

Definition code (c : ascii) : N := Ascii.N_of_ascii c.

Definition is_char (k : N) (c : ascii) : bool := N.eqb (code c) k.

(** WhiteSpace and LineTerminator code units below 256: TAB, LF, VT, FF, CR,
    SP and NBSP. *)
Definition is_whitespace (c : ascii) : bool :=
  existsb (N.eqb (code c)) [9; 10; 11; 12; 13; 32; 160]%N.

Definition is_decimal_digit (c : ascii) : bool :=
  N.leb 48 (code c) && N.leb (code c) 57.

(** The value of [c] as a digit (0-9, a-z, A-Z), when it is below [radix]. *)
Definition digit_of (radix : Z) (c : ascii) : option Z :=
  (let n := Z.of_N (code c) in
   let v := if (48 <=? n) && (n <=? 57) then Some (n - 48)
            else if (97 <=? n) && (n <=? 122) then Some (n - 87)
            else if (65 <=? n) && (n <=? 90) then Some (n - 55)
            else None in
   match v with
   | Some d => if d <? radix then Some d else None
   | None => None
   end)%Z.

Definition is_digit (radix : Z) (c : ascii) : bool :=
  match digit_of radix c with Some _ => true | None => false end.

Definition truthy (s : string) : bool :=
  match s with EmptyString => false | String _ _ => true end.

(** [s.includes(c)] for a one-character needle. *)
Fixpoint includes (s : string) (c : ascii) : bool :=
  match s with
  | EmptyString => false
  | String a s' => if Ascii.eqb a c then true else includes s' c
  end.

(** The number of code units of [s] equal to [c]. *)
Fixpoint occurrences (s : string) (c : ascii) : nat :=
  match s with
  | EmptyString => 0
  | String a s' => (if Ascii.eqb a c then 1 else 0) + occurrences s' c
  end.

(** [s.split(sep)] for a one-character separator: the pieces between the
    separators, so never an empty array. *)
Fixpoint split (s : string) (sep : ascii) : list string :=
  match s with
  | EmptyString => [EmptyString]
  | String a s' =>
      if Ascii.eqb a sep then EmptyString :: split s' sep
      else match split s' sep with
           | piece :: pieces => String a piece :: pieces
           | [] => [String a EmptyString]
           end
  end.

Fixpoint repeat_string (s : string) (n : nat) : string :=
  match n with
  | O => EmptyString
  | S n' => s +:+ repeat_string s n'
  end.

(** The longest prefix of [s] whose code units satisfy [p], and the rest. *)
Fixpoint span (p : ascii -> bool) (s : string) : string * string :=
  match s with
  | EmptyString => (EmptyString, EmptyString)
  | String a s' =>
      if p a then let '(pre, rest) := span p s' in (String a pre, rest)
      else (EmptyString, s)
  end.

Fixpoint trim_start (s : string) : string :=
  match s with
  | EmptyString => EmptyString
  | String a s' => if is_whitespace a then trim_start s' else s
  end.

Fixpoint trim_end (s : string) : string :=
  match s with
  | EmptyString => EmptyString
  | String a s' =>
      match trim_end s' with
      | EmptyString => if is_whitespace a then EmptyString else String a EmptyString
      | t => String a t
      end
  end.

Definition trim (s : string) : string := trim_end (trim_start s).

(** The integer written by the digits [s] in [radix], most significant first. *)
Fixpoint digits_value (radix : Z) (s : string) (acc : Z) : Z :=
  match s with
  | EmptyString => acc
  | String a s' =>
      digits_value radix s' (acc * radix + default 0%Z (digit_of radix a))%Z
  end.

End JsString.

Import JsString.

(** ** Numbers *)

Inductive number : Type :=
| NaN
| NegInfinity
| Infinity
| Finite (q : Q).

Definition of_Z (z : Z) : number := Finite (inject_Z z).
Definition of_nat (n : nat) : number := of_Z (Z.of_nat n).

(** [a <= b] on numbers: false as soon as one side is NaN. *)
Definition num_le (a b : number) : bool :=
  match a, b with
  | NaN, _ | _, NaN => false
  | NegInfinity, _ => true
  | _, Infinity => true
  | Finite x, Finite y => Qle_bool x y
  | Infinity, _ => false
  | Finite _, NegInfinity => false
  end.

(** [a >= b] *)
Definition num_ge (a b : number) : bool := num_le b a.

Definition Math_max (a b : number) : number :=
  match a, b with
  | NaN, _ | _, NaN => NaN
  | _, _ => if num_le a b then b else a
  end.

Definition Math_min (a b : number) : number :=
  match a, b with
  | NaN, _ | _, NaN => NaN
  | _, _ => if num_le a b then a else b
  end.

(** [s.repeat(count)]: the count goes through ToIntegerOrInfinity (NaN to 0,
    truncation towards zero); a negative or infinite count throws a
    RangeError, here [None]. *)
Definition String_repeat (s : string) (count : number) : option string :=
  match count with
  | NaN => Some EmptyString
  | Finite q =>
      let n := Z.quot (Qnum q) (Zpos (Qden q)) in
      if (n <? 0)%Z then None else Some (repeat_string s (Z.to_nat n))
  | Infinity | NegInfinity => None
  end.

(** ** StringToNumber and parseInt *)

(** The mathematical value of a numeric literal, before it is rounded to a
    double. *)
Inductive literal_value : Type :=
| LitInfinity (negative : bool)
| LitFinite (q : Q).

Definition negate (v : literal_value) : literal_value :=
  match v with
  | LitInfinity s => LitInfinity (negb s)
  | LitFinite q => LitFinite (Qopp q)
  end.

Definition pow10 (e : Z) : Q := Qpower (inject_Z 10) e.

(** ExponentPart_opt at the end of a literal: nothing, or [e]/[E], an
    optional sign and at least one digit. *)
Definition exponent_part (s : string) : option Z :=
  match s with
  | EmptyString => Some 0%Z
  | String a r =>
      if is_char 101 a || is_char 69 a then
        let '(neg, r') :=
          match r with
          | String b r1 =>
              if is_char 45 b then (true, r1)
              else if is_char 43 b then (false, r1)
              else (false, r)
          | EmptyString => (false, r)
          end in
        let '(ds, rest) := span is_decimal_digit r' in
        if truthy ds && negb (truthy rest)
        then Some (if neg then - digits_value 10 ds 0 else digits_value 10 ds 0)%Z
        else None
      else None
  end.

(** StrUnsignedDecimalLiteral *)
Definition unsigned_decimal (s : string) : option literal_value :=
  if String.eqb s "Infinity" then Some (LitInfinity false)
  else
    let '(a, r) := span is_decimal_digit s in
    match r with
    | String dot r1 =>
        if is_char 46 dot then
          let '(b, r2) := span is_decimal_digit r1 in
          if truthy a || truthy b then
            e ← exponent_part r2;
            Some (LitFinite
                    (Qmult (Qplus (inject_Z (digits_value 10 a 0))
                                  (Qmult (inject_Z (digits_value 10 b 0))
                                         (pow10 (- Z.of_nat (String.length b)))))
                           (pow10 e)))
          else None
        else if truthy a then
          e ← exponent_part r;
          Some (LitFinite (Qmult (inject_Z (digits_value 10 a 0)) (pow10 e)))
        else None
    | EmptyString =>
        if truthy a then Some (LitFinite (inject_Z (digits_value 10 a 0))) else None
    end.

(** NonDecimalIntegerLiteral: [0x], [0o] or [0b] (either case) and at least
    one digit of that radix, nothing else. *)
Definition non_decimal (s : string) : option literal_value :=
  match s with
  | String z (String x ds) =>
      if is_char 48 z then
        let radix :=
          if is_char 120 x || is_char 88 x then Some 16%Z
          else if is_char 111 x || is_char 79 x then Some 8%Z
          else if is_char 98 x || is_char 66 x then Some 2%Z
          else None in
        match radix with
        | Some r =>
            let '(pre, rest) := span (is_digit r) ds in
            if truthy pre && negb (truthy rest)
            then Some (LitFinite (inject_Z (digits_value r pre 0)))
            else None
        | None => None
        end
      else None
  | _ => None
  end.

(** StrNumericLiteral *)
Definition numeric_literal (s : string) : option literal_value :=
  match non_decimal s with
  | Some v => Some v
  | None =>
      match s with
      | String a r =>
          if is_char 45 a then negate <$> unsigned_decimal r
          else if is_char 43 a then unsigned_decimal r
          else unsigned_decimal s
      | EmptyString => None
      end
  end.

(** StringToNumber up to the final rounding: [None] is NaN; the empty and the
    all-blank string denote 0. *)
Definition StringToNumber (s : string) : option literal_value :=
  let t := trim s in
  if truthy t then numeric_literal t else Some (LitFinite 0%Q).

(** The global [isNaN] applied to a string: it converts with ToNumber first,
    and rounding a literal never gives NaN. *)
Definition isNaN (s : string) : bool :=
  match StringToNumber s with Some _ => false | None => true end.

(** [parseInt(s)] with no radix.  The result is the integer that was read;
    the engine returns the double nearest to it, which for more than 2^53
    differs from it but stays on the same side of every small integer. *)
Definition parseInt (s : string) : number :=
  let t := trim_start s in
  let '(negative, t1) :=
    match t with
    | String a r =>
        if is_char 45 a then (true, r)
        else if is_char 43 a then (false, r)
        else (false, t)
    | EmptyString => (false, t)
    end in
  let '(radix, t2) :=
    match t1 with
    | String z (String x r) =>
        if is_char 48 z && (is_char 120 x || is_char 88 x) then (16%Z, r)
        else (10%Z, t1)
    | _ => (10%Z, t1)
    end in
  let '(ds, _) := span (is_digit radix) t2 in
  if truthy ds
  then of_Z (if negative then - digits_value radix ds 0 else digits_value radix ds 0)
  else NaN.

(** ** Settings, raw elements and restaurants *)

Module Settings.
Record t : Type := {
  distance : float;          (* search radius in miles *)
  price : option string;     (* "min,max"; [None] when the key is undefined *)
  dietary : string
}.
End Settings.

(** [defaultSettings] *)
Definition defaultSettings : Settings.t :=
  {| Settings.distance := 0.5%float; Settings.price := Some "2,3"; Settings.dietary := "" |}.

(** [miles * 1609.34] in binary64 arithmetic. *)
Definition milesToMeters (miles : float) : float := (miles * 1609.34)%float.

Record center : Type := { center_lat : float; center_lon : float }.

(** An element of [data.elements].  A coordinate that the record lacks reads
    as [undefined], here [None]; tag values are strings. *)
Record element : Type := {
  el_type : string;
  el_id : float;
  el_lat : option float;
  el_lon : option float;
  el_center : option center;
  el_tags : option (gmap string string)
}.

Record restaurant : Type := {
  name : string;
  distance : string;
  price : string;
  lat : option float;
  lng : option float;
  osmId : float;
  osmType : string;
  osmUrl : string;
  mapUrl : string
}.

(** What [fetchRestaurants] hands on: the two early returns with an alert, or
    the list given to [updateWheel]. *)
Inductive fetched : Type :=
| NoRestaurants
| NoNamedRestaurants
| Restaurants (restaurants : list restaurant).

Definition quote : string := String (Ascii.ascii_of_N 34) EmptyString.
Definition newline : string := String (Ascii.ascii_of_N 10) EmptyString.

(** Lines 97-110: the price level of an element from its [price] tag. *)
Definition priceLevel (price_tag : option string) : number :=
  match price_tag with
  | Some p =>
      if truthy p then
        let level :=
          if includes p "$"%char then of_Z (Z.of_nat (length (split p "$"%char)) - 1)
          else if negb (isNaN p) then parseInt p
          else of_Z 2 in
        Math_min (Math_max level (of_Z 1)) (of_Z 4)
      else of_Z 2
  | None => of_Z 2
  end.

Section Pipeline.

(** Built-ins of the engine that format or round a double. *)
Variable Number_toString : float -> string.
Variable toFixed : float -> nat -> string.
(** The double nearest to a rational (an infinity on overflow). *)
Variable round : Q -> number.

Definition Number_ (s : string) : number :=
  match StringToNumber s with
  | None => NaN
  | Some (LitInfinity negative) => if negative then NegInfinity else Infinity
  | Some (LitFinite q) => round q
  end.

(** A value interpolated in a template literal. *)
Definition show (x : option float) : string :=
  match x with Some f => Number_toString f | None => "undefined" end.

(** Lines 37-47: the Overpass query text. *)
Definition overpassQuery (radius lat lng : float) : string :=
  let around :=
    "(around:" +:+ Number_toString radius +:+ "," +:+ Number_toString lat
      +:+ "," +:+ Number_toString lng +:+ ");" in
  let tagged := "[" +:+ quote +:+ "amenity" +:+ quote +:+ "=" +:+ quote
                  +:+ "restaurant" +:+ quote +:+ "]" in
  newline +:+
  "        [out:json];" +:+ newline +:+
  "        (" +:+ newline +:+
  "          node" +:+ tagged +:+ around +:+ newline +:+
  "          way" +:+ tagged +:+ around +:+ newline +:+
  "          relation" +:+ tagged +:+ around +:+ newline +:+
  "        );" +:+ newline +:+
  "        out body;" +:+ newline +:+
  "        >;" +:+ newline +:+
  "        out skel qt;" +:+ newline +:+
  "      ".

(** Lines 29-47: the radius and the query for a position and the settings. *)
Definition query_radius (settings : Settings.t) : float :=
  milesToMeters (Settings.distance settings).

Definition build_query (settings : Settings.t) (lat lng : float) : string :=
  let radius := query_radius settings in
  overpassQuery radius lat lng.

(** Lines 77-81: tagged as a restaurant, with a name. *)
Definition is_named_restaurant (e : element) : bool :=
  match el_tags e with
  | Some tags =>
      bool_decide (tags !! "amenity" = Some "restaurant")
      && match tags !! "name" with Some n => truthy n | None => false end
  | None => false
  end.

(** Lines 92-133: the restaurant of an element that passed the filter above.
    [None] stands for an exception: a missing tag map, which the filter
    excludes, or a RangeError of [repeat]. *)
Definition to_restaurant (settings : Settings.t) (e : element) : option restaurant :=
  tags ← el_tags e;
  element_name ← tags !! "name";
  let elementLat := match el_center e with Some c => Some (center_lat c) | None => el_lat e end in
  let elementLng := match el_center e with Some c => Some (center_lon c) | None => el_lon e end in
  priceSign ← String_repeat "$" (priceLevel (tags !! "price"));
  let id := el_id e in
  let type :=
    if String.eqb (el_type e) "node" then "node"
    else if String.eqb (el_type e) "way" then "way" else "relation" in
  let url := "https://www.openstreetmap.org/" +:+ type +:+ "/" +:+ Number_toString id in
  Some {| name := element_name;
          distance := toFixed (Settings.distance settings) 1;
          price := priceSign;
          lat := elementLat;
          lng := elementLng;
          osmId := id;
          osmType := type;
          osmUrl := url;
          mapUrl := "https://www.openstreetmap.org/?mlat=" +:+ show elementLat
                      +:+ "&mlon=" +:+ show elementLng +:+ "&zoom=18" |}.

(** Lines 136-142: the price filter.  A bound that the array lacks is
    [undefined] and compares as NaN. *)
Definition price_filter (range : option string) (restaurants : list restaurant)
  : list restaurant :=
  match range with
  | Some p =>
      if truthy p then
        let bounds := Number_ <$> split p ","%char in
        let minPrice := default NaN (bounds !! 0) in
        let maxPrice := default NaN (bounds !! 1) in
        List.filter
          (fun r =>
             let restaurantPrice := of_nat (String.length (price r)) in
             num_ge restaurantPrice minPrice && num_le restaurantPrice maxPrice)
          restaurants
      else restaurants
  | None => restaurants
  end.

(** Lines 145-152: [filter] with the closure over the Set [seen]. *)
Fixpoint dedup_from (seen : gset string) (restaurants : list restaurant)
  : list restaurant :=
  match restaurants with
  | [] => []
  | r :: rest =>
      if decide (name r ∈ seen) then dedup_from seen rest
      else r :: dedup_from ({[name r]} ∪ seen) rest
  end.

Definition dedup (restaurants : list restaurant) : list restaurant :=
  dedup_from ∅ restaurants.

(** Deduplication as the specification words it, position by position: the
    entry at index [i] stays exactly when no entry before it has its name.
    [dedup] is compared with this reading below. *)
Definition first_occurrences (restaurants : list restaurant) : list restaurant :=
  omap id
    (imap (fun i r =>
             if decide (name r ∈ name <$> take i restaurants) then None else Some r)
          restaurants).

(** The level the price filter reads off a restaurant. *)
Definition level (r : restaurant) : number := of_nat (String.length (price r)).

(** Lines 67-152, from the parsed response to the list for the wheel. *)
Definition process (settings : Settings.t) (elements : option (list element))
  : option fetched :=
  match elements with
  | None | Some [] => Some NoRestaurants
  | Some elements =>
      match List.filter is_named_restaurant elements with
      | [] => Some NoNamedRestaurants
      | restaurantElements =>
          restaurants ← mapM (to_restaurant settings) restaurantElements;
          Some (Restaurants (dedup (price_filter (Settings.price settings) restaurants)))
      end
  end.

End Pipeline.

(** ** The wheel and the history *)

Inductive value : Type :=
| VUndefined
| VString (s : string)
| VNumber (x : float).

(** Reading a property: [undefined] when the object lacks the key. *)
Definition get (o : gmap string value) (k : string) : value :=
  default VUndefined (o !! k).

Record state : Type := {
  options : list (gmap string value);
  restaurantHistory : list (gmap string value)
}.

(** *** [Array.prototype.sort] under a comparator that ignores its arguments

    The comparator of [updateWheel] is [() => Math.random() - 0.5].  What an
    engine's sort does with an array of [n] objects then depends only on [n]
    and on the signs the comparator returns, call after call: a decision tree.
    A leaf gives the result as the list of input positions, first to last. *)
Inductive sorter : Type :=
| Sorted (order : list nat)
| Compare (negative zero positive : sorter).

(** [Math.random()] returns [draw / 2^bits] for some [0 <= draw < 2^bits];
    subtracting 0.5 is exact, so the sign of the comparator's result is the
    comparison of [draw] with [2^(bits-1)]. *)
Definition comparator (bits : N) (draw : N) : comparison :=
  N.compare draw (2 ^ (bits - 1)).

(** Running a sort on the successive draws of [Math.random]. *)
Fixpoint run (bits : N) (plan : sorter) (random : nat -> N) : list nat :=
  match plan with
  | Sorted order => order
  | Compare negative zero positive =>
      let next := fun i => random (S i) in
      match comparator bits (random 0) with
      | Lt => run bits negative next
      | Eq => run bits zero next
      | Gt => run bits positive next
      end
  end.

(** The largest number of comparator calls. *)
Fixpoint depth (plan : sorter) : nat :=
  match plan with
  | Sorted _ => 0
  | Compare negative zero positive =>
      S (depth negative `max` (depth zero `max` depth positive))
  end.

(** [order] holds each of the positions 0 .. n-1 once. *)
Definition is_order (n : nat) (order : list nat) : bool :=
  bool_decide (length order = n)
  && forallb (fun i => bool_decide (i ∈ order)) (seq 0 n).

(** Every result of the sort is a rearrangement of the [n] inputs. *)
Fixpoint sorter_ok (n : nat) (plan : sorter) : bool :=
  match plan with
  | Sorted order => is_order n order
  | Compare negative zero positive =>
      sorter_ok n negative && sorter_ok n zero && sorter_ok n positive
  end.

(** A concrete engine: straight insertion sort.  [before] is the sorted
    prefix, nearest neighbour first; [after] holds what already moved right
    of [x]; a positive result of [comparefn(y, x)] moves [y] right. *)
Fixpoint insert_plan (x : nat) (before after : list nat) (k : list nat -> sorter)
  : sorter :=
  match before with
  | [] => k (x :: after)
  | y :: before' =>
      let stop := k (rev before ++ x :: after) in
      Compare stop stop (insert_plan x before' (y :: after) k)
  end.

Fixpoint insertion_plan (todo sorted : list nat) : sorter :=
  match todo with
  | [] => Sorted sorted
  | x :: todo' => insert_plan x (rev sorted) [] (fun s => insertion_plan todo' s)
  end.

Definition insertion_sort (n : nat) : sorter := insertion_plan (seq 0 n) [].

(** All sequences of [d] draws, each equally likely. *)
Definition grid (bits : N) : list N := N.of_nat <$> seq 0 (N.to_nat (2 ^ bits)).

Fixpoint all_draws (bits : N) (d : nat) : list (list N) :=
  match d with
  | O => [[]]
  | S d' => draw ← grid bits; (cons draw) <$> all_draws bits d'
  end.

Definition stream (draws : list N) : nat -> N := fun i => nth i draws 0%N.

(** On how many of the sequences of [d] draws the sort ends in [order]. *)
Definition count_order (bits : N) (d : nat) (plan : sorter) (order : list nat) : nat :=
  length (filter (fun ds => run bits plan (stream ds) = order) (all_draws bits d)).

Section Wheel.

(** The engine's sort, by array length, and the resolution of its
    [Math.random]. *)
Variable engine : nat -> sorter.
Variable bits : N.

(** Line 186: [[...restaurants].sort(() => Math.random() - 0.5)] *)
Definition shuffle (random : nat -> N) (restaurants : list restaurant)
  : list restaurant :=
  let order := run bits (engine (length restaurants)) random in
  omap (fun i => restaurants !! i) order.

Definition wheel_entry (r : restaurant) : gmap string value :=
  {[ "name" := VString (name r); "mapUrl" := VString (mapUrl r) ]}.

(** Lines 182-195 *)
Definition updateWheel (random : nat -> N) (restaurants : list restaurant)
    (st : state) : state :=
  let cleared : list (gmap string value) := [] in
  let shuffledRestaurants := shuffle random restaurants in
  let selectedRestaurants := take 8 shuffledRestaurants in
  {| options := cleared ++ (wheel_entry <$> selectedRestaurants);
     restaurantHistory := restaurantHistory st |}.

End Wheel.

(** Lines 265-272 *)
Definition loadHistory (history : list (gmap string value)) (st : state) : state :=
  {| options := options st; restaurantHistory := history |}.

(** Lines 274-287; [now] is [new Date().toISOString()]. *)
Definition saveToHistory (now : string) (restaurant : gmap string value)
    (st : state) : state :=
  let historyEntry := <["timestamp" := VString now]> restaurant in
  let unshifted := historyEntry :: restaurantHistory st in
  {| options := options st;
     restaurantHistory :=
       if decide (20 < length unshifted) then take 20 unshifted else unshifted |}.

(** [restaurantHistory[index]]: [None] is [undefined]. *)
Definition history_get (index : nat) (st : state) : option (gmap string value) :=
  restaurantHistory st !! index.

(** A run of [saveToHistory] calls, oldest first. *)
Definition saveAll (calls : list (string * gmap string value)) (st : state) : state :=
  foldl (fun s call => saveToHistory call.1 call.2 s) st calls.

(** Lines 357-360: the object pushed on the wheel. *)
Definition reinjected (restaurant : gmap string value) : gmap string value :=
  {[ "name" := get restaurant "name"; "mapUrl" := get restaurant "mapUrl" ]}.

(** Lines 352-364 *)
Definition addRestaurantToWheel (restaurant : gmap string value) (st : state)
  : state :=
  let popped :=
    if decide (8 <= length (options st)) then removelast (options st)
    else options st in
  {| options := popped ++ [reinjected restaurant];
     restaurantHistory := restaurantHistory st |}.

(** Instances of the engine's built-ins on which the examples run.  Rounding
    is exact on the small integers the examples convert; the formatted text
    of a number is read by no example, so one placeholder stands for it. *)
Definition exact_round (q : Q) : number := Finite q.
Definition plain_toString (x : float) : string := "n".
Definition plain_toFixed (x : float) (digits : nat) : string := "n".

(** The rational a finite double stands for. *)
Definition float_value (x : float) : option Q :=
  match Prim2SF x with
  | S754_zero _ => Some 0%Q
  | S754_finite negative m e =>
      Some (Qmult (inject_Z (if negative then Z.neg m else Z.pos m))
                  (Qpower (inject_Z 2) e))
  | _ => None
  end.

(** The settings with a radius of 1e308 miles. *)
Definition huge_distance : Settings.t :=
  {| Settings.distance := 1e308%float; Settings.price := Some "2,3";
     Settings.dietary := "" |}.

(** How a shifted mantissa sits in the integer [M] it was cut from: after
    [k] right shifts the record holds the quotient of [M] by [2^k], and its
    round and sticky bits say where the remainder lies against half of
    [2^k]. *)
Definition located (M : Z) (k : nat) (r : shr_record) : Prop :=
  (let rest := M - shr_m r * 2 ^ Z.of_nat k in
   0 <= shr_m r /\ 0 <= rest < 2 ^ Z.of_nat k
   /\ match shr_r r, shr_s r with
      | false, false => rest = 0
      | false, true => 0 < 2 * rest < 2 ^ Z.of_nat k
      | true, false => 2 * rest = 2 ^ Z.of_nat k
      | true, true => 2 ^ Z.of_nat k < 2 * rest
      end)%Z.

(** Sample data for the examples. *)
Definition sample (n dollars : string) : restaurant :=
  {| name := n; distance := "0.5"; price := dollars;
     lat := Some 40.0%float; lng := Some (-74.0)%float;
     osmId := 1%float; osmType := "node";
     osmUrl := "https://www.openstreetmap.org/node/1";
     mapUrl := "https://www.openstreetmap.org/?mlat=40&mlon=-74&zoom=18" |}.

Definition sample_state : state := {| options := []; restaurantHistory := [] |}.

Definition sample_option (n : string) : gmap string value :=
  {[ "name" := VString n; "mapUrl" := VString "https://www.openstreetmap.org/" ]}.

Definition three_candidates : list restaurant :=
  [sample "A" "$$"; sample "B" "$"; sample "C" "$$$"].

Definition nine_candidates : list restaurant :=
  (fun n => sample n "$$") <$> ["A"; "B"; "C"; "D"; "E"; "F"; "G"; "H"; "I"].

Definition full_wheel : state :=
  {| options := sample_option <$> ["A"; "B"; "C"; "D"; "E"; "F"; "G"; "H"];
     restaurantHistory := [] |}.

(** A raw element as the Overpass response gives it: a node with a name and
    a price tag. *)
Definition sample_element (n tag : string) : element :=
  {| el_type := "node"; el_id := 1%float;
     el_lat := Some 40.0%float; el_lon := Some (-74.0)%float;
     el_center := None;
     el_tags := Some (<["price" := tag]> {[ "amenity" := "restaurant"; "name" := n ]}) |}.

Definition names_and_prices (result : option fetched) : option (list (string * string)) :=
  match result with
  | Some (Restaurants l) => Some ((fun r => (name r, price r)) <$> l)
  | _ => None
  end.

(** ** Callers and the remaining handlers *)

(** Lines 157-160: [restaurants.reduce((acc, r) => { acc[r.name] = r; return
    acc; }, {})].  The assignment creates or replaces the own property
    [r.name], except for the name [__proto__], which sets the prototype
    instead; the properties below leave that name out. *)
Definition restaurantDetails_by_name (restaurants : list restaurant)
  : gmap string restaurant :=
  foldl (fun acc r => <[name r := r]> acc) ∅ restaurants.

(** Lines 65-167 of [fetchRestaurants], from the parsed response on: the two
    early returns leave the wheel as it is, otherwise the timer runs
    [updateWheel] on the list.  [st] is the state the timer finds; [None] is
    an exception. *)
Definition refresh (Number_toString : float -> string)
    (toFixed : float -> nat -> string) (round : Q -> number)
    (engine : nat -> sorter) (bits : N) (random : nat -> N)
    (settings : Settings.t) (elements : option (list element)) (st : state)
  : option state :=
  match process Number_toString toFixed round settings elements with
  | Some (Restaurants restaurants) =>
      Some (updateWheel engine bits random restaurants st)
  | Some NoRestaurants | Some NoNamedRestaurants => Some st
  | None => None
  end.

(** Lines 275-278: [{...restaurant, timestamp: now}] *)
Definition historyEntry (now : string) (restaurant : gmap string value)
  : gmap string value :=
  <["timestamp" := VString now]> restaurant.

(** The entries a run of calls writes, oldest first. *)
Definition entries (calls : list (string * gmap string value))
  : list (gmap string value) :=
  (fun call => historyEntry call.1 call.2) <$> calls.

(** Lines 338-344: the click on "Add to Wheel" of the item [index].  When the
    log has no such entry, [restaurant.name] is read off [undefined]: a
    TypeError, here [None]. *)
Definition addFromHistory (index : nat) (st : state) : option state :=
  restaurant ← history_get index st;
  Some (addRestaurantToWheel restaurant st).

(** ToBoolean on a value. *)
Definition value_truthy (v : value) : bool :=
  match v with
  | VUndefined => false
  | VString s => truthy s
  | VNumber x => negb (PrimFloat.eqb x 0%float || PrimFloat.is_nan x)
  end.

Section HistoryView.

Variable Number_toString : float -> string.

(** A value interpolated in a template literal. *)
Definition interpolate (v : value) : string :=
  match v with
  | VUndefined => "undefined"
  | VString s => s
  | VNumber x => Number_toString x
  end.

(** Lines 321-336: both loops register a click listener on every "View on
    Map" button, so a click runs the two of them in that order.  The result
    lists the first argument of each [window.open] call; [None] is the
    TypeError of both listeners when the log has no entry [index]. *)
Definition view_on_map_click (index : nat) (st : state) : option (list value) :=
  entry ← history_get index st;
  let first := get entry "mapUrl" in
  let mapUrl :=
    if value_truthy (get entry "mapUrl") then get entry "mapUrl"
    else VString ("https://www.openstreetmap.org/?mlat=" +:+ interpolate (get entry "lat")
                    +:+ "&mlon=" +:+ interpolate (get entry "lng") +:+ "&zoom=18") in
  Some [first; mapUrl].

End HistoryView.

(** What the user and the timer can do to the state. *)
Inductive action : Type :=
| UpdateWheel (random : nat -> N) (restaurants : list restaurant)
| AddToWheel (restaurant : gmap string value)
| SaveToHistory (now : string) (restaurant : gmap string value).

Definition perform (engine : nat -> sorter) (bits : N) (st : state) (a : action)
  : state :=
  match a with
  | UpdateWheel random restaurants => updateWheel engine bits random restaurants st
  | AddToWheel restaurant => addRestaurantToWheel restaurant st
  | SaveToHistory now restaurant => saveToHistory now restaurant st
  end.

Definition perform_all (engine : nat -> sorter) (bits : N) (actions : list action)
    (st : state) : state :=
  foldl (perform engine bits) st actions.

(** More sample data. *)
Definition way_element (n : string) : element :=
  {| el_type := "way"; el_id := 7%float;
     el_lat := None; el_lon := None;
     el_center := Some {| center_lat := 40.5%float; center_lon := (-73.5)%float |};
     el_tags := Some {[ "amenity" := "restaurant"; "name" := n ]} |}.

Definition saved_entry : gmap string value :=
  historyEntry "2024-05-01T12:00:00.000Z" (sample_option "A").

Definition sample_calls : list (string * gmap string value) :=
  [("2024-05-01T12:00:00.000Z", sample_option "A");
   ("2024-05-02T12:00:00.000Z", sample_option "B")].

(** The restaurant of [sample_element "A" "$$"] under the placeholder
    formatting. *)
Definition converted_sample : restaurant :=
  {| name := "A"; distance := "n"; price := "$$";
     lat := Some 40.0%float; lng := Some (-74.0)%float;
     osmId := 1%float; osmType := "node";
     osmUrl := "https://www.openstreetmap.org/node/n";
     mapUrl := "https://www.openstreetmap.org/?mlat=n&mlon=n&zoom=18" |}.

Definition sample_actions : list action :=
  [UpdateWheel (fun _ => 0%N) three_candidates;
   SaveToHistory "2024-05-01T12:00:00.000Z" (sample_option "A");
   AddToWheel saved_entry].

Definition one_option_wheel : state :=
  {| options := [sample_option "A"]; restaurantHistory := [] |}.

(** A wheel one short of full, with a history log beside it. *)
Definition seven_option_wheel : state :=
  {| options := sample_option <$> ["A"; "B"; "C"; "D"; "E"; "F"; "G"];
     restaurantHistory := [saved_entry] |}.

(** * Properties *)

(** ** The built-ins on sample inputs *)

Ltac by_computation := vm_compute; reflexivity.

Lemma split_samples :
  split "2,3" ","%char = ["2"; "3"]
  /\ split "$$" "$"%char = [""; ""; ""]
  /\ split "" ","%char = [""]
  /\ split "3" ","%char = ["3"].
Proof. repeat split; by_computation. Qed.

(** Strings that convert to a number, and strings that do not. *)
Lemma isNaN_samples :
  forallb (fun s => negb (isNaN s))
    ["2"; " 12 "; "2.5"; ".5"; "1."; "1e3"; "0x1F"; "-7"; "+.5e-1"; "Infinity";
     "-Infinity"; ""; " "] = true
  /\ forallb isNaN ["cheap"; "."; "1e"; "-0x10"; "3 4"; "$$"; "10 EUR"; "infinity"]
     = true.
Proof. split; by_computation. Qed.

(** What [parseInt] reads from the same strings. *)
Lemma parseInt_samples :
  parseInt <$> ["2"; " 12 "; "2.5"; "1e3"; "0x1F"; "-7"; "08"; "  -42abc"]
  = of_Z <$> [2; 12; 2; 1; 31; -7; 8; -42]%Z
  /\ parseInt <$> [".5"; "+.5e-1"; "Infinity"; ""; " "; "0x"; "cheap"]
     = [NaN; NaN; NaN; NaN; NaN; NaN; NaN].
Proof. split; by_computation. Qed.

(** The price levels of sample tags. *)
Lemma priceLevel_samples :
  priceLevel <$> [None; Some ""; Some "$"; Some "$$"; Some "$$$$$$"; Some "3";
                  Some "0"; Some "7"; Some "-3"; Some "2.5"; Some "cheap";
                  Some "10 EUR"]
  = of_Z <$> [2; 2; 1; 2; 4; 3; 1; 4; 1; 2; 2; 2]%Z.
Proof. by_computation. Qed.

(** ** The history log *)

Lemma saveToHistory_history now c st :
  restaurantHistory (saveToHistory now c st)
  = take 20 (<["timestamp" := VString now]> c :: restaurantHistory st).
Proof.
  unfold saveToHistory; cbn [restaurantHistory].
  case_decide as Hlen; [reflexivity|].
  symmetry. apply take_ge. lia.
Qed.

Lemma saveToHistory_options now c st :
  options (saveToHistory now c st) = options st.
Proof. reflexivity. Qed.

Lemma saveAll_snoc calls now c st :
  saveAll (calls ++ [(now, c)]) st = saveToHistory now c (saveAll calls st).
Proof. unfold saveAll. rewrite foldl_app. reflexivity. Qed.

Lemma saveAll_options calls st : options (saveAll calls st) = options st.
Proof.
  revert st. induction calls as [|[now c] calls IH]; intros st; [reflexivity|].
  cbn. change (options (saveAll calls (saveToHistory now c st)) = options st).
  rewrite IH. apply saveToHistory_options.
Qed.

(** From a log within the bound, every run of appends stays within it. *)
Lemma saveAll_bounded calls st :
  length (restaurantHistory st) <= 20 ->
  length (restaurantHistory (saveAll calls st)) <= 20.
Proof.
  induction calls as [|[now c] calls IH] using rev_ind; intros Hst; [exact Hst|].
  rewrite saveAll_snoc, saveToHistory_history, length_take. lia.
Qed.

(** C4.  After a run of [saveToHistory] calls ending with the call for
    candidate [c], from any state: the log is the timestamped [c] put in
    front of the previous log and cut after index 19; it has at most 20
    entries; and its entry at index 0 is the timestamped [c].  The wheel is
    untouched.  From the empty log of line 6 every run of calls, the empty
    one included, stays within 20 entries. *)
Theorem history_bounded_newest_first (st : state)
    (calls : list (string * gmap string value)) (now : string)
    (c : gmap string value) :
  let before := saveAll calls st in
  let after := saveAll (calls ++ [(now, c)]) st in
  restaurantHistory after
    = take 20 (<["timestamp" := VString now]> c :: restaurantHistory before)
  /\ length (restaurantHistory after) <= 20
  /\ history_get 0 after = Some (<["timestamp" := VString now]> c)
  /\ options after = options st
  /\ length (restaurantHistory
               (saveAll calls {| options := options st; restaurantHistory := [] |}))
     <= 20.
Proof.
  intros before after. subst before after.
  rewrite saveAll_snoc.
  assert (Hhist := saveToHistory_history now c (saveAll calls st)).
  split; [exact Hhist|].
  split; [rewrite Hhist, length_take; lia|].
  split; [unfold history_get; rewrite Hhist; reflexivity|].
  split; [rewrite saveToHistory_options; apply saveAll_options|].
  apply saveAll_bounded. cbn. lia.
Qed.

(** C8.  For a candidate without a [timestamp] key, and any state, the entry
    read back at index 0 after the append agrees with the candidate on every
    other key, holds the timestamp, and has exactly that one key more. *)
Theorem saveToHistory_get_roundtrip (now : string) (c : gmap string value)
    (st : state) :
  c !! "timestamp" = None ->
  exists e : gmap string value,
    history_get 0 (saveToHistory now c st) = Some e
    /\ (forall k : string, k <> "timestamp" -> e !! k = c !! k)
    /\ e !! "timestamp" = Some (VString now)
    /\ dom e = {["timestamp"]} ∪ dom c
    /\ size e = S (size c)
    /\ delete "timestamp" e = c.
Proof.
  intros Hfresh. exists (<["timestamp" := VString now]> c).
  split.
  { unfold history_get. rewrite saveToHistory_history. reflexivity. }
  split.
  { intros k Hk. apply lookup_insert_ne. congruence. }
  split; [apply lookup_insert_eq|].
  split; [apply dom_insert_L|].
  split; [apply map_size_insert_None; exact Hfresh|].
  rewrite delete_insert_eq. apply delete_id. exact Hfresh.
Qed.

(** ** Adding to the wheel *)

Lemma removelast_snoc {A} (l : list A) (x : A) : removelast (l ++ [x]) = l.
Proof. apply removelast_last. Qed.

Lemma last_split {A} (l : list A) :
  l <> [] -> exists front x, l = front ++ [x].
Proof.
  intros Hl. destruct (exists_last Hl) as (front & x & ->). eauto.
Qed.

(** The object pushed on the wheel has the two keys [name] and [mapUrl] and
    no other; each holds what the property of that name holds in the
    argument, [undefined] when the argument has no such property. *)
Lemma reinjected_dom o : dom (reinjected o) = ({[ "name"; "mapUrl" ]} : gset string).
Proof. unfold reinjected. rewrite dom_insert_L, dom_singleton_L. reflexivity. Qed.

Lemma reinjected_name o :
  reinjected o !! "name" = Some (default VUndefined (o !! "name")).
Proof. unfold reinjected, get. apply lookup_insert_eq. Qed.

Lemma reinjected_mapUrl o :
  reinjected o !! "mapUrl" = Some (default VUndefined (o !! "mapUrl")).
Proof.
  unfold reinjected, get.
  rewrite lookup_insert_ne by discriminate. apply lookup_singleton_eq.
Qed.

Lemma reinjected_other o (k : string) :
  k <> "name" -> k <> "mapUrl" -> reinjected o !! k = None.
Proof.
  intros Hname Hurl. apply not_elem_of_dom. rewrite reinjected_dom. set_solver.
Qed.

Lemma addRestaurantToWheel_full_options restaurant st kept evicted :
  options st = kept ++ [evicted] -> length (options st) = 8 ->
  options (addRestaurantToWheel restaurant st) = kept ++ [reinjected restaurant].
Proof.
  intros Hopts Hlen. unfold addRestaurantToWheel; cbn [options].
  case_decide as Hfull; [|lia].
  rewrite Hopts, removelast_snoc. reflexivity.
Qed.

Lemma addRestaurantToWheel_room_options restaurant st :
  length (options st) < 8 ->
  options (addRestaurantToWheel restaurant st) = options st ++ [reinjected restaurant].
Proof.
  intros Hlen. unfold addRestaurantToWheel; cbn [options].
  case_decide as Hfull; [lia|reflexivity].
Qed.

(** C7.  On a wheel of exactly 8 entries the last entry is the one evicted,
    the new entry takes its place at the end, and 8 entries remain: the
    first seven places hold what they held, the eighth holds the new object,
    whose keys are exactly [name] and [mapUrl], with the values of the
    argument's properties of those names ([undefined] for a missing one). *)
Theorem addRestaurantToWheel_full (restaurant : gmap string value) (st : state) :
  length (options st) = 8 ->
  exists kept evicted,
    options st = kept ++ [evicted]
    /\ options (addRestaurantToWheel restaurant st) = kept ++ [reinjected restaurant]
    /\ length (options (addRestaurantToWheel restaurant st)) = 8
    /\ restaurantHistory (addRestaurantToWheel restaurant st) = restaurantHistory st
    /\ length kept = 7
    /\ options st !! 7 = Some evicted
    /\ (forall i, i < 7 ->
          options (addRestaurantToWheel restaurant st) !! i = options st !! i)
    /\ (exists added,
          options (addRestaurantToWheel restaurant st) !! 7 = Some added
          /\ dom added = ({[ "name"; "mapUrl" ]} : gset string)
          /\ added !! "name" = Some (default VUndefined (restaurant !! "name"))
          /\ added !! "mapUrl" = Some (default VUndefined (restaurant !! "mapUrl"))
          /\ (forall k : string, k <> "name" -> k <> "mapUrl" -> added !! k = None)).
Proof.
  intros Hlen.
  destruct (last_split (options st)) as (kept & evicted & Hopts).
  { intros Hnil. rewrite Hnil in Hlen. discriminate. }
  exists kept, evicted.
  pose proof (addRestaurantToWheel_full_options restaurant st kept evicted Hopts Hlen)
    as Hadd.
  assert (Hkept : length kept = 7).
  { rewrite Hopts, length_app in Hlen. cbn [length] in Hlen. lia. }
  split; [exact Hopts|]. split; [exact Hadd|].
  split; [rewrite Hadd, length_app; cbn [length]; lia|].
  split; [reflexivity|]. split; [exact Hkept|].
  split; [rewrite Hopts, <- Hkept; apply list_lookup_middle; reflexivity|].
  split.
  - intros i Hi. rewrite Hadd, Hopts, !lookup_app_l by lia. reflexivity.
  - exists (reinjected restaurant).
    split; [rewrite Hadd, <- Hkept; apply list_lookup_middle; reflexivity|].
    split; [apply reinjected_dom|]. split; [apply reinjected_name|].
    split; [apply reinjected_mapUrl|]. apply reinjected_other.
Qed.

(** C10.  On a wheel of fewer than 8 entries nothing is evicted: the new
    entry is appended, the entries before it keep their places, the wheel
    grows by one and still has at most 8 entries.  The entry appended is the
    object whose keys are exactly [name] and [mapUrl], with the values of
    the argument's properties of those names ([undefined] for a missing
    one). *)
Theorem addRestaurantToWheel_room (restaurant : gmap string value) (st : state) :
  length (options st) < 8 ->
  options (addRestaurantToWheel restaurant st)
    = options st ++ [reinjected restaurant]
  /\ length (options (addRestaurantToWheel restaurant st)) = S (length (options st))
  /\ length (options (addRestaurantToWheel restaurant st)) <= 8
  /\ (forall i o, options st !! i = Some o ->
        options (addRestaurantToWheel restaurant st) !! i = Some o)
  /\ restaurantHistory (addRestaurantToWheel restaurant st) = restaurantHistory st
  /\ take (length (options st)) (options (addRestaurantToWheel restaurant st))
     = options st
  /\ (exists added,
        options (addRestaurantToWheel restaurant st) !! length (options st) = Some added
        /\ dom added = ({[ "name"; "mapUrl" ]} : gset string)
        /\ added !! "name" = Some (default VUndefined (restaurant !! "name"))
        /\ added !! "mapUrl" = Some (default VUndefined (restaurant !! "mapUrl"))
        /\ (forall k : string, k <> "name" -> k <> "mapUrl" -> added !! k = None)).
Proof.
  intros Hlen.
  pose proof (addRestaurantToWheel_room_options restaurant st Hlen) as Hadd.
  rewrite Hadd, length_app. cbn [length].
  split; [reflexivity|]. split; [lia|]. split; [lia|].
  split; [intros i o Hi; apply lookup_app_l_Some; exact Hi|].
  split; [reflexivity|].
  split; [apply take_app_length|].
  exists (reinjected restaurant).
  split; [apply list_lookup_middle; reflexivity|].
  split; [apply reinjected_dom|]. split; [apply reinjected_name|].
  split; [apply reinjected_mapUrl|]. apply reinjected_other.
Qed.

(** ** Name deduplication *)

Lemma dedup_from_snoc seen rs r :
  dedup_from seen (rs ++ [r])
  = dedup_from seen rs
      ++ (if decide (name r ∈ seen ∪ list_to_set (name <$> rs)) then [] else [r]).
Proof.
  revert seen. induction rs as [|x rs IH]; intros seen.
  - cbn [app dedup_from fmap list_fmap].
    repeat case_decide; try reflexivity; set_solver.
  - cbn [app dedup_from]. rewrite fmap_cons, list_to_set_cons.
    generalize dependent (name r). generalize dependent (name x).
    intros nx n IH.
    destruct (decide (nx ∈ seen)) as [Hx|Hx]; rewrite IH; cbn [app];
      f_equal; repeat case_decide; try reflexivity; set_solver.
Qed.

Lemma dedup_snoc rs r :
  dedup (rs ++ [r])
  = dedup rs ++ (if decide (name r ∈ name <$> rs) then [] else [r]).
Proof.
  unfold dedup. rewrite dedup_from_snoc.
  f_equal. repeat case_decide; try reflexivity; set_solver.
Qed.

Lemma dedup_from_sublist seen rs : sublist (dedup_from seen rs) rs.
Proof.
  revert seen. induction rs as [|x rs IH]; intros seen; cbn; [constructor|].
  destruct (decide (name x ∈ seen)).
  - apply sublist_cons, IH.
  - apply sublist_skip, IH.
Qed.

Lemma dedup_names rs n : n ∈ name <$> dedup rs <-> n ∈ name <$> rs.
Proof.
  induction rs as [|r rs IH] using rev_ind; [reflexivity|].
  rewrite dedup_snoc, !fmap_app, !elem_of_app, IH.
  destruct (decide (name r ∈ name <$> rs)) as [Hin|Hin]; cbn; [|reflexivity].
  rewrite list_elem_of_singleton, elem_of_nil. split; [tauto|].
  intros [H| ->]; tauto.
Qed.

Lemma dedup_NoDup rs : NoDup (name <$> dedup rs).
Proof.
  induction rs as [|r rs IH] using rev_ind; [constructor|].
  rewrite dedup_snoc, fmap_app.
  destruct (decide (name r ∈ name <$> rs)) as [Hin|Hin]; cbn.
  - rewrite app_nil_r. exact IH.
  - apply NoDup_app. split; [exact IH|]. split; [|apply NoDup_singleton].
    intros n Hn Hr. apply list_elem_of_singleton in Hr. subst n.
    apply Hin, dedup_names, Hn.
Qed.

Lemma first_occurrences_snoc rs r :
  first_occurrences (rs ++ [r])
  = first_occurrences rs ++ (if decide (name r ∈ name <$> rs) then [] else [r]).
Proof.
  unfold first_occurrences. rewrite imap_app, omap_app. f_equal.
  - f_equal. apply imap_ext. intros i x Hi.
    assert (i < length rs) by (eapply lookup_lt_Some; exact Hi).
    rewrite take_app_le by lia. reflexivity.
  - cbn. rewrite Nat.add_0_r, take_app_length.
    destruct (decide (name r ∈ name <$> rs)); reflexivity.
Qed.

(** C6.  [dedup] keeps the entry at index [i] exactly when its name occurs at
    no earlier index, in the original order ([first_occurrences]); so it only
    drops entries, the names left are pairwise distinct, and every name of
    the input is still there. *)
Theorem dedup_keeps_first_occurrences (rs : list restaurant) :
  dedup rs = first_occurrences rs
  /\ sublist (dedup rs) rs
  /\ NoDup (name <$> dedup rs)
  /\ (forall n : string, n ∈ name <$> dedup rs <-> n ∈ name <$> rs).
Proof.
  split; [|split; [apply dedup_from_sublist|split; [apply dedup_NoDup|]]].
  - induction rs as [|r rs IH] using rev_ind; [reflexivity|].
    rewrite dedup_snoc, first_occurrences_snoc, IH. reflexivity.
  - intros n. apply dedup_names.
Qed.

(** An entry with an already seen name is dropped, whatever else differs. *)
Lemma dedup_drops_later rs r :
  name r ∈ name <$> rs -> dedup (rs ++ [r]) = dedup rs.
Proof.
  intros Hin. rewrite dedup_snoc.
  destruct (decide (name r ∈ name <$> rs)); [apply app_nil_r|tauto].
Qed.

(** ** The price filter *)

Lemma num_le_Finite a b : num_le (Finite a) (Finite b) = true <-> (a <= b)%Q.
Proof. cbn. apply Qle_bool_iff. Qed.

Lemma num_le_NaN_r a : num_le a NaN = false.
Proof. destruct a; reflexivity. Qed.

Lemma level_Finite r :
  level r = Finite (inject_Z (Z.of_nat (String.length (price r)))).
Proof. reflexivity. Qed.

Lemma price_filter_unfold round p rs :
  p <> EmptyString ->
  price_filter round (Some p) rs
  = List.filter
      (fun r =>
         num_ge (level r) (default NaN ((Number_ round <$> split p ","%char) !! 0))
         && num_le (level r) (default NaN ((Number_ round <$> split p ","%char) !! 1)))
      rs.
Proof. intros Hp. destruct p; [congruence|reflexivity]. Qed.

Lemma filter_sublist {A} (f : A -> bool) (l : list A) : sublist (List.filter f l) l.
Proof.
  induction l as [|x l IH]; cbn; [constructor|].
  destruct (f x); [apply sublist_skip|apply sublist_cons]; exact IH.
Qed.

(** Membership in the filtered list, for a range whose two parts convert to
    finite numbers. *)
Lemma price_filter_elem round rs p (minPrice maxPrice : Q) r :
  p <> EmptyString ->
  (Number_ round <$> split p ","%char) !! 0 = Some (Finite minPrice) ->
  (Number_ round <$> split p ","%char) !! 1 = Some (Finite maxPrice) ->
  r ∈ price_filter round (Some p) rs
  <-> r ∈ rs
      /\ (minPrice <= inject_Z (Z.of_nat (String.length (price r))))%Q
      /\ (inject_Z (Z.of_nat (String.length (price r))) <= maxPrice)%Q.
Proof.
  intros Hp Hmin Hmax.
  rewrite (price_filter_unfold round p rs Hp), Hmin, Hmax. cbn [default].
  rewrite list_elem_of_In, filter_In, <- list_elem_of_In.
  rewrite andb_true_iff. unfold num_ge, id. rewrite level_Finite, !num_le_Finite.
  reflexivity.
Qed.

Lemma price_filter_sublist round range rs : sublist (price_filter round range rs) rs.
Proof.
  unfold price_filter. destruct range as [p|]; [|reflexivity].
  destruct (truthy p); [apply filter_sublist|reflexivity].
Qed.

(** C5.  With no range, or the empty one, the pass is skipped and every
    candidate stays.  With a range whose two parts convert to the finite
    numbers [minPrice] and [maxPrice], a candidate stays exactly when
    [minPrice <= level <= maxPrice], both ends included, and the order of
    those that stay is unchanged. *)
Theorem price_filter_inclusive (round : Q -> number) (rs : list restaurant) :
  price_filter round None rs = rs
  /\ price_filter round (Some EmptyString) rs = rs
  /\ forall (p : string) (minPrice maxPrice : Q),
       p <> EmptyString ->
       (Number_ round <$> split p ","%char) !! 0 = Some (Finite minPrice) ->
       (Number_ round <$> split p ","%char) !! 1 = Some (Finite maxPrice) ->
       (forall r : restaurant,
           r ∈ price_filter round (Some p) rs
           <-> r ∈ rs
               /\ (minPrice <= inject_Z (Z.of_nat (String.length (price r))))%Q
               /\ (inject_Z (Z.of_nat (String.length (price r))) <= maxPrice)%Q)
       /\ sublist (price_filter round (Some p) rs) rs.
Proof.
  split; [reflexivity|]. split; [reflexivity|].
  intros p minPrice maxPrice Hp Hmin Hmax.
  split; [|apply price_filter_sublist].
  intros r. apply price_filter_elem; assumption.
Qed.

(** A candidate whose level equals a bound stays. *)
Lemma price_filter_keeps_bounds round rs p (lo hi : nat) r :
  p <> EmptyString ->
  (Number_ round <$> split p ","%char) !! 0 = Some (of_nat lo) ->
  (Number_ round <$> split p ","%char) !! 1 = Some (of_nat hi) ->
  lo <= hi -> r ∈ rs ->
  String.length (price r) = lo \/ String.length (price r) = hi ->
  r ∈ price_filter round (Some p) rs.
Proof.
  intros Hp Hlo Hhi Hle Hr Hlevel.
  apply (price_filter_elem round rs p _ _ r Hp Hlo Hhi). split; [exact Hr|].
  rewrite <- !Zle_Qle. lia.
Qed.

(** A range with a single part has no upper bound to compare with, and
    nothing passes. *)
Lemma price_filter_missing_bound round rs p :
  p <> EmptyString ->
  (Number_ round <$> split p ","%char) !! 1 = None ->
  price_filter round (Some p) rs = [].
Proof.
  intros Hp Hmax. rewrite (price_filter_unfold round p rs Hp), Hmax. cbn [default].
  induction rs as [|r rs IH]; [reflexivity|]. cbn [List.filter].
  rewrite num_le_NaN_r, andb_false_r. exact IH.
Qed.

(** ** The price level *)

Lemma split_length s c : length (split s c) = S (occurrences s c).
Proof.
  induction s as [|a s IH]; [reflexivity|]. cbn [split occurrences].
  destruct (Ascii.eqb a c); cbn [length Nat.add].
  - rewrite IH. reflexivity.
  - destruct (split s c) as [|piece pieces]; [discriminate IH|exact IH].
Qed.

Lemma includes_occurrences s c : includes s c = true <-> 0 < occurrences s c.
Proof.
  induction s as [|a s IH]; cbn [includes occurrences].
  - split; [discriminate|lia].
  - destruct (Ascii.eqb a c); [split; [lia|reflexivity]|exact IH].
Qed.

Lemma includes_truthy s c : includes s c = true -> truthy s = true.
Proof. destruct s; [discriminate|reflexivity]. Qed.

Lemma Qle_bool_inject_Z a b : Qle_bool (inject_Z a) (inject_Z b) = (a <=? b)%Z.
Proof. unfold Qle_bool, inject_Z; cbn. rewrite !Z.mul_1_r. reflexivity. Qed.

Lemma Math_max_of_Z a b : Math_max (of_Z a) (of_Z b) = of_Z (Z.max a b).
Proof.
  unfold Math_max, of_Z, num_le. rewrite Qle_bool_inject_Z.
  destruct (Z.leb_spec a b); f_equal; f_equal; lia.
Qed.

Lemma Math_min_of_Z a b : Math_min (of_Z a) (of_Z b) = of_Z (Z.min a b).
Proof.
  unfold Math_min, of_Z, num_le. rewrite Qle_bool_inject_Z.
  destruct (Z.leb_spec a b); f_equal; f_equal; lia.
Qed.

(** [Math.min(Math.max(level, 1), 4)] on an integer. *)
Lemma clamp_of_Z z :
  Math_min (Math_max (of_Z z) (of_Z 1)) (of_Z 4) = of_Z (Z.min (Z.max z 1) 4).
Proof. rewrite Math_max_of_Z, Math_min_of_Z. reflexivity. Qed.

Lemma parseInt_cases s : parseInt s = NaN \/ exists z, parseInt s = of_Z z.
Proof.
  unfold parseInt.
  destruct (match trim_start s with
            | String a r =>
                if is_char 45 a then (true, r)
                else if is_char 43 a then (false, r) else (false, trim_start s)
            | EmptyString => (false, trim_start s)
            end) as [negative t1].
  destruct (match t1 with
            | String z (String x r) =>
                if is_char 48 z && (is_char 120 x || is_char 88 x)
                then (16%Z, r) else (10%Z, t1)
            | _ => (10%Z, t1)
            end) as [radix t2].
  destruct (span (is_digit radix) t2) as [ds rest].
  destruct (truthy ds); [right; eauto|left; reflexivity].
Qed.

(** A tag with a dollar sign: the number of dollar signs, at most 4. *)
Lemma priceLevel_dollars p :
  includes p "$"%char = true ->
  priceLevel (Some p) = of_Z (Z.min (Z.of_nat (occurrences p "$"%char)) 4)
  /\ (1 <= Z.min (Z.of_nat (occurrences p "$"%char)) 4 <= 4)%Z.
Proof.
  intros Hinc. pose proof (includes_truthy _ _ Hinc) as Htruthy.
  apply includes_occurrences in Hinc as Hocc.
  unfold priceLevel. rewrite Htruthy, Hinc, split_length, clamp_of_Z.
  split; [f_equal|]; lia.
Qed.

(** A tag without a dollar sign that converts to a number and from which
    [parseInt] reads the integer [z]: [z] clamped into 1..4. *)
Lemma priceLevel_numeric p z :
  p <> EmptyString -> includes p "$"%char = false -> isNaN p = false ->
  parseInt p = of_Z z ->
  priceLevel (Some p) = of_Z (Z.min (Z.max z 1) 4)
  /\ (1 <= Z.min (Z.max z 1) 4 <= 4)%Z.
Proof.
  intros Hp Hinc Hnum Hint. unfold priceLevel.
  destruct p; [congruence|]. cbn [truthy].
  rewrite Hinc, Hnum, Hint. cbn [negb]. rewrite clamp_of_Z. split; [reflexivity|lia].
Qed.

(** No tag, an empty tag, or a tag of neither form: the default 2. *)
Lemma priceLevel_default tag :
  tag = None \/ tag = Some EmptyString
  \/ (exists p, tag = Some p /\ includes p "$"%char = false /\ isNaN p = true) ->
  priceLevel tag = of_Z 2.
Proof.
  intros [-> | [-> | (p & -> & Hinc & Hnan)]]; [reflexivity|reflexivity|].
  unfold priceLevel. destruct (truthy p); [|reflexivity].
  rewrite Hinc, Hnan. cbn [negb]. rewrite clamp_of_Z. reflexivity.
Qed.

(** The level is NaN exactly for a tag without a dollar sign that converts
    to a number while [parseInt] reads no integer from it; otherwise it is
    an integer from 1 to 4. *)
Lemma priceLevel_cases tag :
  (priceLevel tag = NaN
   /\ exists p, tag = Some p /\ p <> EmptyString /\ includes p "$"%char = false
                /\ isNaN p = false /\ parseInt p = NaN)
  \/ (exists k, (1 <= k <= 4)%Z /\ priceLevel tag = of_Z k).
Proof.
  destruct tag as [p|]; [|right; exists 2%Z; split; [lia|reflexivity]].
  destruct (includes p "$"%char) eqn:Hinc.
  { right. destruct (priceLevel_dollars p Hinc) as [Heq Hrange]. eauto. }
  destruct p as [|a p'] eqn:Hp; [right; exists 2%Z; split; [lia|reflexivity]|].
  rewrite <- Hp in *. assert (Hne : p <> EmptyString) by (subst p; discriminate).
  destruct (isNaN p) eqn:Hnan.
  { right. exists 2%Z. split; [lia|]. apply priceLevel_default. eauto 6. }
  destruct (parseInt_cases p) as [Hint | [z Hint]].
  - left. split; [|eauto 8].
    unfold priceLevel. subst p. cbn [truthy]. rewrite Hinc, Hnan, Hint. reflexivity.
  - right. destruct (priceLevel_numeric p z Hne Hinc Hnan Hint) as [Heq Hrange]. eauto.
Qed.

Lemma length_repeat_dollar n : String.length (repeat_string "$" n) = n.
Proof. induction n as [|n IH]; [reflexivity|]. simpl. f_equal. exact IH. Qed.

(** The dollar string of a level: as many signs as the level, none for NaN,
    and never a RangeError. *)
Lemma priceSign_length tag :
  exists sign, String_repeat "$" (priceLevel tag) = Some sign
    /\ (priceLevel tag = NaN -> sign = EmptyString)
    /\ (forall k, priceLevel tag = of_Z k -> String.length sign = Z.to_nat k).
Proof.
  destruct (priceLevel_cases tag) as [[Hnan _] | (k & Hk & Heq)]; rewrite ?Hnan, ?Heq.
  - exists EmptyString. split; [reflexivity|]. split; [reflexivity|discriminate].
  - exists (repeat_string "$" (Z.to_nat k)). split.
    + unfold String_repeat, of_Z, inject_Z; cbn [Qnum Qden]. rewrite Z.quot_1_r.
      destruct (Z.ltb_spec k 0); [lia|reflexivity].
    + split; [discriminate|]. intros k' Hk'. injection Hk' as ->. apply length_repeat_dollar.
Qed.

(** The map of lines 92-133 never throws on an element that passed the
    filter of lines 77-81. *)
Lemma to_restaurant_total toS toF settings e :
  is_named_restaurant e = true -> is_Some (to_restaurant toS toF settings e).
Proof.
  unfold is_named_restaurant, to_restaurant. intros He.
  destruct (el_tags e) as [tags|]; [|discriminate]. cbn.
  destruct (tags !! "name") as [n|]; [|rewrite andb_false_r in He; discriminate]. cbn.
  destruct (priceSign_length (tags !! "price")) as (sign & -> & _). cbn. eauto.
Qed.

(** C1, at inputs where it fails.  A price tag that reads [.5], or is one
    space, or reads [Infinity], has no dollar sign and converts to a number,
    but [parseInt] reads no integer from it: the level is NaN, the clamp
    keeps NaN, and so the level is no integer at all; the restaurant gets the
    empty dollar string. *)
Theorem priceLevel_can_be_NaN :
  priceLevel (Some ".5") = NaN
  /\ priceLevel (Some " ") = NaN
  /\ priceLevel (Some "Infinity") = NaN
  /\ (forall k : Z, priceLevel (Some ".5") <> of_Z k)
  /\ String_repeat "$" (priceLevel (Some ".5")) = Some EmptyString.
Proof.
  assert (Hhalf : priceLevel (Some ".5") = NaN).
  { unfold priceLevel. cbn [truthy].
    replace (includes ".5" "$"%char) with false by (by_computation).
    replace (isNaN ".5") with false by (by_computation).
    replace (parseInt ".5") with NaN by (by_computation).
    reflexivity. }
  split; [exact Hhalf|].
  split; [by_computation|].
  split; [by_computation|].
  split; [intros k Hk; rewrite Hhalf in Hk; discriminate Hk|].
  rewrite Hhalf. reflexivity.
Qed.

(** ** Building the wheel *)

Lemma is_order_Permutation n order : is_order n order = true -> order ≡ₚ seq 0 n.
Proof.
  unfold is_order. intros [Hlen Hall]%andb_true_iff.
  apply bool_decide_eq_true in Hlen.
  symmetry. apply submseteq_length_Permutation.
  - apply NoDup_submseteq; [apply NoDup_seq|].
    intros i Hi. rewrite forallb_forall in Hall.
    apply list_elem_of_In, Hall in Hi. apply bool_decide_eq_true in Hi. exact Hi.
  - rewrite length_seq. lia.
Qed.

Lemma run_Permutation bits n plan random :
  sorter_ok n plan = true -> run bits plan random ≡ₚ seq 0 n.
Proof.
  revert random. induction plan as [order|neg IHn zero IHz pos IHp]; intros random Hok.
  - apply is_order_Permutation. exact Hok.
  - cbn [sorter_ok] in Hok. apply andb_true_iff in Hok as [Hok Hp].
    apply andb_true_iff in Hok as [Hn Hz].
    cbn [run]. destruct (comparator bits (random 0)); auto.
Qed.

Lemma omap_lookup_seq_from {A} (pre l : list A) :
  omap (fun i => (pre ++ l) !! i) (seq (length pre) (length l)) = l.
Proof.
  revert pre. induction l as [|x l IH]; intros pre; [reflexivity|].
  cbn. rewrite list_lookup_middle by reflexivity.
  f_equal. specialize (IH (pre ++ [x])).
  rewrite <- app_assoc, length_app, Nat.add_1_r in IH. exact IH.
Qed.

Lemma omap_lookup_seq {A} (l : list A) :
  omap (fun i => l !! i) (seq 0 (length l)) = l.
Proof. exact (omap_lookup_seq_from [] l). Qed.

(** Whatever the draws, a sort that rearranges gives the same restaurants in
    some order. *)
Lemma shuffle_Permutation engine bits random rs :
  sorter_ok (length rs) (engine (length rs)) = true ->
  shuffle engine bits random rs ≡ₚ rs.
Proof.
  intros Hok. unfold shuffle.
  rewrite (run_Permutation bits _ _ random Hok). rewrite omap_lookup_seq. reflexivity.
Qed.

Lemma wheel_entry_dom r : dom (wheel_entry r) = ({[ "name"; "mapUrl" ]} : gset string).
Proof.
  unfold wheel_entry. rewrite dom_insert_L, dom_singleton_L. reflexivity.
Qed.

Lemma updateWheel_unfold engine bits random rs st :
  options (updateWheel engine bits random rs st)
  = wheel_entry <$> take 8 (shuffle engine bits random rs).
Proof. reflexivity. Qed.

Lemma updateWheel_length engine bits random rs st :
  sorter_ok (length rs) (engine (length rs)) = true ->
  length (options (updateWheel engine bits random rs st)) = length rs `min` 8.
Proof.
  intros Hok. rewrite updateWheel_unfold, length_fmap, length_take.
  rewrite (Permutation_length (shuffle_Permutation engine bits random rs Hok)). lia.
Qed.

(** C2.  For every engine whose sort rearranges its input, every source of
    draws and every candidate list: the wheel holds the first 8 of the
    shuffled candidates, that is [min N 8] options, none for the empty list;
    each option has the keys [name] and [mapUrl] only, with the values of a
    candidate of the list. *)
Theorem updateWheel_options (engine : nat -> sorter) (bits : N)
    (random : nat -> N) (rs : list restaurant) (st : state) :
  sorter_ok (length rs) (engine (length rs)) = true ->
  let st' := updateWheel engine bits random rs st in
  options st' = wheel_entry <$> take 8 (shuffle engine bits random rs)
  /\ shuffle engine bits random rs ≡ₚ rs
  /\ length (options st') = length rs `min` 8
  /\ (rs = [] -> options st' = [])
  /\ (forall o, o ∈ options st' ->
        dom o = ({[ "name"; "mapUrl" ]} : gset string)
        /\ exists r, r ∈ rs /\ o !! "name" = Some (VString (name r))
                     /\ o !! "mapUrl" = Some (VString (mapUrl r)))
  /\ restaurantHistory st' = restaurantHistory st.
Proof.
  intros Hok st'. pose proof (shuffle_Permutation engine bits random rs Hok) as Hperm.
  pose proof (updateWheel_unfold engine bits random rs st) as Hopts.
  pose proof (updateWheel_length engine bits random rs st Hok) as Hlen.
  fold st' in Hopts, Hlen.
  split; [exact Hopts|]. split; [exact Hperm|]. split; [exact Hlen|].
  split; [|split; [|reflexivity]].
  - intros ->. apply nil_length_inv. rewrite Hlen. reflexivity.
  - intros o Ho. rewrite Hopts in Ho.
    apply list_elem_of_fmap in Ho as (r & -> & Hr).
    split; [apply wheel_entry_dom|].
    exists r. split; [|split; reflexivity].
    rewrite <- Hperm. eapply subseteq_take. exact Hr.
Qed.

(** ** The distribution of the shuffle *)

(** A sort that makes at most [length draws] comparator calls reads nothing
    past them: among the sequences of [d >= depth plan] draws,
    [count_order] out of [(2^bits)^d] is the probability of an order. *)
Lemma run_first_draws bits plan draws more :
  depth plan <= length draws ->
  run bits plan (stream (draws ++ more)) = run bits plan (stream draws).
Proof.
  revert draws. induction plan as [order|neg IHn zero IHz pos IHp]; intros draws Hd;
    [reflexivity|].
  cbn [depth] in Hd. destruct draws as [|x draws]; cbn [length] in Hd; [lia|].
  cbn [run]. change (stream ((x :: draws) ++ more) 0) with x.
  change (stream (x :: draws) 0) with x.
  change (fun i => stream ((x :: draws) ++ more) (S i)) with (stream (draws ++ more)).
  change (fun i => stream (x :: draws) (S i)) with (stream draws).
  destruct (comparator bits x); [apply IHz|apply IHn|apply IHp]; lia.
Qed.

Lemma length_bind_const {A B} (f : A -> list B) (l : list A) (m : nat) :
  (forall x, length (f x) = m) -> length (l ≫= f) = length l * m.
Proof.
  intros Hf. induction l as [|x l IH]; [reflexivity|].
  rewrite bind_cons, length_app, Hf, IH. reflexivity.
Qed.

Lemma length_all_draws bits d :
  length (all_draws bits d) = 2 ^ (N.to_nat bits * d).
Proof.
  induction d as [|d IH]; cbn [all_draws].
  - rewrite Nat.mul_0_r. reflexivity.
  - rewrite (length_bind_const _ _ (2 ^ (N.to_nat bits * d))).
    + unfold grid. rewrite length_fmap, length_seq, N2Nat.inj_pow.
      change (N.to_nat 2) with 2.
      rewrite <- Nat.pow_add_r. f_equal. lia.
    + intros x. rewrite length_fmap. exact IH.
Qed.

Lemma pow2_mod3 k : 2 ^ k mod 3 = 1 \/ 2 ^ k mod 3 = 2.
Proof.
  induction k as [|k IH]; [left; reflexivity|].
  rewrite Nat.pow_succ_r', Nat.Div0.mul_mod by lia.
  destruct IH as [-> | ->]; [right|left]; reflexivity.
Qed.

Lemma pow2_not_multiple_of_6 k c : 6 * c <> 2 ^ k.
Proof.
  intros Heq. assert (Hmod : 2 ^ k mod 3 = 0).
  { rewrite <- Heq. replace (6 * c) with (2 * c * 3) by lia.
    apply Nat.Div0.mod_mul. }
  destruct (pow2_mod3 k); lia.
Qed.

Section Counting.
Context {A B : Type} `{EqDecision B} (f : A -> B).

Lemma sum_indicator (b : B) (P : list B) :
  NoDup P -> b ∈ P ->
  sum_list_with (fun p => if decide (b = p) then 1 else 0) P = 1.
Proof.
  induction 1 as [|p P Hp HP IH]; intros Hb; [inversion Hb|].
  cbn [sum_list_with]. apply elem_of_cons in Hb as [-> | Hb].
  - rewrite decide_True by reflexivity.
    replace (sum_list_with _ P) with 0; [reflexivity|].
    clear IH HP. induction P as [|q P IHP]; [reflexivity|].
    cbn [sum_list_with]. rewrite decide_False by set_solver.
    rewrite <- IHP by set_solver. reflexivity.
  - rewrite decide_False by (intros ->; tauto). rewrite IH by exact Hb. reflexivity.
Qed.

Lemma count_cons (w : A) (ws : list A) (P : list B) :
  sum_list_with (fun p => length (filter (fun x => f x = p) (w :: ws))) P
  = sum_list_with (fun p => if decide (f w = p) then 1 else 0) P
    + sum_list_with (fun p => length (filter (fun x => f x = p) ws)) P.
Proof.
  induction P as [|p P IH]; [reflexivity|].
  cbn [sum_list_with]. rewrite IH, filter_cons.
  destruct (decide (f w = p)); cbn [length]; lia.
Qed.

(** Each element falls under exactly one of the outcomes [P]: the counts per
    outcome add up to the number of elements. *)
Lemma count_partition (P : list B) (ws : list A) :
  NoDup P -> (forall w, w ∈ ws -> f w ∈ P) ->
  sum_list_with (fun p => length (filter (fun x => f x = p) ws)) P = length ws.
Proof.
  intros HP. induction ws as [|w ws IH]; intros Hin.
  - clear. induction P as [|p P IHP]; [reflexivity|exact IHP].
  - rewrite count_cons, sum_indicator, IH; [reflexivity| |exact HP|].
    + intros x Hx. apply Hin. right. exact Hx.
    + apply Hin. left.
Qed.

End Counting.

Lemma sum_list_with_constant {B} (g : B -> nat) (P : list B) (c : nat) :
  (forall p, p ∈ P -> g p = c) -> sum_list_with g P = length P * c.
Proof.
  induction P as [|p P IH]; intros Hg; [reflexivity|].
  cbn [sum_list_with length]. rewrite Hg by left. rewrite IH; [lia|].
  intros q Hq. apply Hg. right. exact Hq.
Qed.

Lemma count_order_total bits d plan :
  sorter_ok 3 plan = true ->
  sum_list_with (count_order bits d plan) (permutations (seq 0 3))
  = 2 ^ (N.to_nat bits * d).
Proof.
  intros Hok. rewrite <- length_all_draws. unfold count_order.
  apply (count_partition (fun ds => run bits plan (stream ds))).
  - apply (bool_decide_unpack _). vm_compute. exact I.
  - intros ds _. apply permutations_Permutation. symmetry.
    apply run_Permutation. exact Hok.
Qed.

(** C3, where it fails.  Take a list of three candidates, any engine whose
    sort rearranges them, any resolution [bits] of [Math.random] and any
    number [d] of draws.  Among the [2^(bits*d)] equally likely sequences of
    draws, the six orders of the three candidates do not all come out equally
    often: six equal counts would add up to a power of two. *)
Theorem sort_shuffle_not_uniform (engine : nat -> sorter) (bits : N) (d : nat)
    (rs : list restaurant) :
  length rs = 3 ->
  sorter_ok (length rs) (engine (length rs)) = true ->
  ~ (forall p q : list nat,
       p ≡ₚ seq 0 (length rs) -> q ≡ₚ seq 0 (length rs) ->
       count_order bits d (engine (length rs)) p
       = count_order bits d (engine (length rs)) q).
Proof.
  intros -> Hok Hsame.
  pose proof (count_order_total bits d (engine 3) Hok) as Htotal.
  rewrite (sum_list_with_constant _ _ (count_order bits d (engine 3) (seq 0 3)))
    in Htotal.
  - change (length (permutations (seq 0 3))) with 6 in Htotal.
    exact (pow2_not_multiple_of_6 _ _ Htotal).
  - intros p Hp. apply Hsame; [|reflexivity].
    symmetry. apply permutations_Permutation. exact Hp.
Qed.

(** The counts for straight insertion sort on three candidates, with
    [Math.random] on a grid of 8 values and 3 draws: 512 sequences, spread
    over the orders 012, 102, 120, 021, 201, 210 far from evenly. *)
Lemma insertion_sort_counts :
  count_order 3 3 (insertion_sort 3) <$> permutations (seq 0 3)
  = [200; 120; 45; 75; 45; 27].
Proof. by_computation. Qed.

(** ** The search radius *)

(** The double written [1609.34] lies within half a unit in the last place
    (2^-43) of 1609.34: it is the binary64 number nearest to it. *)
Lemma meters_per_mile_nearest :
  exists c : Q,
    float_value 1609.34%float = Some c
    /\ ((160934 # 100) - (1 # 8796093022208) <= c)%Q
    /\ (c <= (160934 # 100) + (1 # 8796093022208))%Q.
Proof.
  eexists. split; [by_computation|].
  split; apply Qle_bool_iff; by_computation.
Qed.

(** *** Binary64 multiplication rounds to nearest

    [miles * 1609.34] is [SFmul] on the two doubles: the exact product of the
    mantissas, shifted right until it fits 53 bits (or the least exponent is
    reached) and rounded to nearest, ties to even. *)

Section Rounding.
Local Open Scope Z_scope.

(** Before any shift the record holds [M] itself, exactly. *)
Lemma located_start M : 0 <= M -> located M 0 {| shr_m := M; shr_r := false; shr_s := false |}.
Proof. intros HM. unfold located; cbn. lia. Qed.

(** One more shift: the quotient is halved, the bit shifted out becomes the
    round bit and the old round bit joins the sticky bit. *)
Lemma shr_1_located M k r : located M k r -> located M (S k) (shr_1 r).
Proof.
  unfold located. destruct r as [m r s]. cbn [shr_m shr_r shr_s].
  rewrite Nat2Z.inj_succ, Z.pow_succ_r by lia.
  pose proof (Z.pow_pos_nonneg 2 (Z.of_nat k) ltac:(lia) ltac:(lia)) as HP.
  generalize dependent (2 ^ Z.of_nat k). intros P HP (Hm & Hrest & Hloc).
  destruct m as [|[p|p|]|p]; try lia; cbn [shr_1 shr_m shr_r shr_s];
    destruct r, s; cbn [orb]; lia.
Qed.

(** [iter_pos f p] applies [f] [p] times. *)
Lemma iter_pos_nat {A} (f : A -> A) p x : SpecFloat.iter_pos f p x = Nat.iter (Pos.to_nat p) f x.
Proof.
  revert x. induction p as [p IH|p IH|]; intros x; cbn [SpecFloat.iter_pos].
  - rewrite !IH, Pos2Nat.inj_xI.
    replace (S (2 * Pos.to_nat p))%nat
      with (Pos.to_nat p + (Pos.to_nat p + 1))%nat by lia.
    rewrite !Nat.iter_add. reflexivity.
  - rewrite !IH, Pos2Nat.inj_xO.
    replace (2 * Pos.to_nat p)%nat with (Pos.to_nat p + Pos.to_nat p)%nat by lia.
    rewrite Nat.iter_add. reflexivity.
  - reflexivity.
Qed.

Lemma iter_shr_1_located M k n r :
  located M k r -> located M (n + k) (Nat.iter n shr_1 r).
Proof.
  intros H. induction n as [|n IH]; [exact H|].
  cbn [Nat.iter Nat.add]. apply shr_1_located. exact IH.
Qed.

(** [digits2_pos p] is the number of binary digits of [p]. *)
Lemma digits2_pos_bounds p :
  2 ^ (Z.pos (digits2_pos p) - 1) <= Z.pos p < 2 ^ Z.pos (digits2_pos p).
Proof.
  induction p as [p IH|p IH|]; cbn [digits2_pos]; [| |cbn; lia].
  all: rewrite Pos2Z.inj_succ;
    replace (Z.succ (Z.pos (digits2_pos p)) - 1)
      with (Z.succ (Z.pos (digits2_pos p) - 1)) by lia;
    rewrite !Z.pow_succ_r by lia; lia.
Qed.

Lemma Zdigits2_le z k : 0 <= k -> 0 <= z < 2 ^ k -> Zdigits2 z <= k.
Proof.
  intros Hk Hz. destruct z as [|p|p]; cbn [Zdigits2]; try lia.
  destruct (Z_le_gt_dec (Z.pos (digits2_pos p)) k) as [|Hgt]; [assumption|].
  pose proof (digits2_pos_bounds p) as [Hlow _].
  assert (2 ^ k <= 2 ^ (Z.pos (digits2_pos p) - 1)) by (apply Z.pow_le_mono_r; lia).
  lia.
Qed.

(** Rounding to nearest, ties to even: the rounded quotient, scaled back by
    [2^k], is at most half of [2^k] away from [M]. *)
Lemma round_nearest_even_located M k r :
  located M k r ->
  let m := round_nearest_even (shr_m r) (loc_of_shr_record r) in
  shr_m r <= m <= shr_m r + 1
  /\ 2 * Z.abs (m * 2 ^ Z.of_nat k - M) <= 2 ^ Z.of_nat k
  /\ (m = 0 -> M < 2 ^ Z.of_nat k).
Proof.
  unfold located. destruct r as [m r s]. cbn [shr_m shr_r shr_s loc_of_shr_record].
  generalize dependent (2 ^ Z.of_nat k). intros P (Hm & Hrest & Hloc).
  destruct r, s; cbn [round_nearest_even]; try destruct (Z.even m); lia.
Qed.

(** The second normalisation of [binary_round_aux] leaves a mantissa of at
    most 53 bits alone, and halves [2^53], the one value a carry of the
    rounding can give. *)
Lemma shr_fexp_small m e :
  0 <= m < 2 ^ 53 -> -1074 <= e ->
  shr_fexp 53 1024 m e loc_Exact = ({| shr_m := m; shr_r := false; shr_s := false |}, e).
Proof.
  intros Hm He. unfold shr_fexp, fexp, SpecFloat.emin. cbn [shr_record_of_loc].
  pose proof (Zdigits2_le m 53 ltac:(lia) Hm) as Hd.
  destruct (Z.max (Zdigits2 m + e - 53) (3 - 1024 - 53) - e) as [|p|p] eqn:Hn;
    cbn [shr]; try reflexivity.
  lia.
Qed.

Lemma shr_fexp_carry e :
  -1074 <= e ->
  shr_fexp 53 1024 (2 ^ 53) e loc_Exact
  = ({| shr_m := 2 ^ 52; shr_r := false; shr_s := false |}, e + 1).
Proof.
  intros He. unfold shr_fexp, fexp, SpecFloat.emin.
  replace (Zdigits2 (2 ^ 53)) with 54 by reflexivity.
  replace (Z.max (54 + e - 53) (3 - 1024 - 53) - e) with 1 by lia.
  reflexivity.
Qed.

(** The first normalisation: [M] is shifted right by some [k >= 0], to an
    exponent not below -1074 and a quotient below [2^53]; unless nothing was
    shifted or the least exponent was reached, the quotient has its full 53
    bits. *)
Lemma shr_fexp_first (M : positive) (E : Z) :
  exists r e k,
    shr_fexp 53 1024 (Z.pos M) E loc_Exact = (r, e)
    /\ e = E + Z.of_nat k /\ -1074 <= e
    /\ located (Z.pos M) k r
    /\ shr_m r < 2 ^ 53
    /\ (e = -1074 \/ k = 0%nat \/ 2 ^ 52 * 2 ^ Z.of_nat k <= Z.pos M).
Proof.
  unfold shr_fexp, fexp, SpecFloat.emin. cbn [Zdigits2 shr_record_of_loc].
  pose proof (digits2_pos_bounds M) as Hd.
  generalize dependent (Z.pos (digits2_pos M)). intros d Hd.
  replace (3 - 1024 - 53) with (-1074) by reflexivity.
  assert (Hpow : forall a b, a <= b -> 2 ^ a <= 2 ^ b)
    by (intros a b Hab; apply Z.pow_le_mono_r; lia).
  assert (Hstart : located (Z.pos M) 0
                     {| shr_m := Z.pos M; shr_r := false; shr_s := false |})
    by (apply located_start; lia).
  destruct (Z.max (d + E - 53) (-1074) - E) as [|p|p] eqn:Hn; cbn [shr].
  1, 3: eexists _, _, 0%nat; split; [reflexivity|];
    split; [cbn; lia|]; split; [lia|]; split; [exact Hstart|];
    split; [cbn [shr_m]; pose proof (Hpow d 53 ltac:(lia)); lia|tauto].
  rewrite iter_pos_nat.
  pose proof (iter_shr_1_located _ 0 (Pos.to_nat p) _ Hstart) as Hloc.
  rewrite Nat.add_0_r in Hloc.
  exists (Nat.iter (Pos.to_nat p) shr_1
            {| shr_m := Z.pos M; shr_r := false; shr_s := false |}),
    (E + Z.pos p), (Pos.to_nat p).
  rewrite positive_nat_Z.
  split; [reflexivity|]. split; [reflexivity|]. split; [lia|].
  split; [exact Hloc|].
  destruct Hloc as (Hm & Hrest & _). rewrite positive_nat_Z in Hrest.
  pose proof (Hpow d (53 + Z.pos p) ltac:(lia)) as Hle.
  rewrite Z.pow_add_r in Hle by lia.
  split; [nia|].
  destruct (Z.eq_dec (E + Z.pos p) (-1074)) as [|Hne]; [left; assumption|].
  right; right. replace (d - 1) with (52 + Z.pos p) in Hd by lia.
  rewrite Z.pow_add_r in Hd by lia. lia.
Qed.

(** The result of rounding [M * 2^E]: a number [m * 2^e] within half of
    [2^e] of it; or an infinity, only from [2^1023] upwards; or a zero, only
    below [2^-1074]. *)
Lemma binary_round_aux_nearest (s : bool) (M : positive) (E : Z) :
  E <= 971 ->
  match binary_round_aux 53 1024 s (Z.pos M) E loc_Exact with
  | S754_zero _ => Z.pos M < 2 ^ (-1074 - E)
  | S754_finite s' m e =>
      s' = s /\ E <= e <= 971
      /\ 2 * Z.abs (Z.pos m * 2 ^ (e - E) - Z.pos M) <= 2 ^ (e - E)
  | S754_infinity s' =>
      s' = s /\ exists e, 971 <= e /\ E <= e /\ 2 ^ 52 * 2 ^ (e - E) <= Z.pos M
  | S754_nan => False
  end.
Proof.
  intros HE. unfold binary_round_aux.
  destruct (shr_fexp_first M E) as (r & e & k & -> & He & Hmin & Hloc & Hsmall & Hk).
  pose proof (round_nearest_even_located _ _ _ Hloc) as (Hm & Hnear & Hzero).
  cbv zeta in Hm, Hnear, Hzero.
  pose proof (proj1 Hloc) as Hm0.
  pose proof (Z.pow_pos_nonneg 2 (Z.of_nat k) ltac:(lia) ltac:(lia)) as HP.
  replace (1024 - 53) with 971 by reflexivity.
  generalize dependent (round_nearest_even (shr_m r) (loc_of_shr_record r)).
  intros m Hm Hnear Hzero.
  assert (Hpow52 : 2 ^ 52 = 4503599627370496) by reflexivity.
  assert (Hpow53 : 2 ^ 53 = 9007199254740992) by reflexivity.
  rewrite Hpow52 in Hk. rewrite Hpow53 in Hsmall.
  assert (HkE : k = 0%nat -> e = E) by lia.
  assert (HEe : E <= e) by lia.
  assert (Hrest : 0 <= Z.pos M - shr_m r * 2 ^ Z.of_nat k < 2 ^ Z.of_nat k)
    by apply Hloc.
  replace (Z.of_nat k) with (e - E) in * by lia.
  destruct (Z_lt_ge_dec m (2 ^ 53)) as [Hlt|Hge].
  - rewrite shr_fexp_small by lia. cbn [shr_m].
    destruct m as [|m|m]; [| |lia].
    + specialize (Hzero eq_refl).
      destruct Hk as [Hk|[Hk|Hk]]; [|rewrite (HkE Hk), Z.sub_diag in *; cbn in *; lia|lia].
      rewrite <- Hk. exact Hzero.
    + destruct (Z.leb_spec e 971) as [Hfin|Hinf].
      * split; [reflexivity|]. split; [lia|exact Hnear].
      * split; [reflexivity|]. exists e. split; [lia|]. split; [lia|].
        rewrite Hpow52.
        destruct Hk as [Hk|[Hk|Hk]]; [lia|specialize (HkE Hk); lia|exact Hk].
  - rewrite Hpow53 in Hge. assert (m = 2 ^ 53) as -> by lia.
    rewrite shr_fexp_carry by lia. cbn [shr_m].
    replace (2 ^ 52) with (Z.pos 4503599627370496) by reflexivity.
    rewrite Hpow53 in Hnear.
    assert (Hk0 : k <> 0%nat).
    { intros Hk0. rewrite (HkE Hk0), Z.sub_diag in *.
      change (2 ^ 0) with 1 in *. lia. }
    destruct (Z.leb_spec (e + 1) 971) as [Hfin|Hinf].
    + split; [reflexivity|]. split; [lia|].
      replace (e + 1 - E) with (Z.succ (e - E)) by lia.
      rewrite Z.pow_succ_r by lia. lia.
    + split; [reflexivity|]. exists e. split; [lia|]. split; [lia|].
      destruct Hk as [Hk|[Hk|Hk]]; [lia|lia|exact Hk].
Qed.

(** A finite double [m * 2^e] has [-1074 <= e <= 971], and a mantissa of a
    full 53 bits unless [e = -1074]. *)
Lemma finite_double_exponent (x : float) s m e :
  Prim2SF x = S754_finite s m e ->
  -1074 <= e <= 971 /\ (e = -1074 \/ 2 ^ 52 <= Z.pos m).
Proof.
  intros Hx. pose proof (Prim2SF_valid x) as Hv. rewrite Hx in Hv.
  cbn [SpecFloat.valid_binary] in Hv.
  unfold bounded, canonical_mantissa, fexp, SpecFloat.emin in Hv.
  apply andb_true_iff in Hv as [Hc He].
  apply Z.eqb_eq in Hc. apply Z.leb_le in He.
  change (emax - prec) with 971 in He.
  change (3 - emax - prec) with (-1074) in Hc. change prec with 53 in Hc.
  pose proof (digits2_pos_bounds m) as Hd.
  split; [lia|].
  destruct (Z.eq_dec e (-1074)) as [|Hne]; [left; assumption|right].
  replace (Z.pos (digits2_pos m) - 1) with 52 in Hd by lia. lia.
Qed.

(** The double written [1609.34]. *)
Lemma meters_per_mile_double :
  Prim2SF 1609.34%float = S754_finite false 7077952172180111 (-42).
Proof. vm_compute. reflexivity. Qed.

(** [milesToMeters] on a positive finite double [mx * 2^ex], in integers
    scaled by [2^(ex - 42)]. *)
Lemma milesToMeters_nearest (miles : float) (mx : positive) (ex : Z) :
  Prim2SF miles = S754_finite false mx ex ->
  match Prim2SF (milesToMeters miles) with
  | S754_finite s m e =>
      s = false /\ ex - 42 <= e
      /\ 2 * Z.abs (Z.pos m * 2 ^ (e - (ex - 42)) - Z.pos mx * 7077952172180111)
         <= 2 ^ (e - (ex - 42))
  | S754_infinity s =>
      s = false
      /\ exists e, 971 <= e /\ ex - 42 <= e
           /\ 2 ^ 52 * 2 ^ (e - (ex - 42)) <= Z.pos mx * 7077952172180111
  | _ => False
  end.
Proof.
  intros Hx. destruct (finite_double_exponent _ _ _ _ Hx) as [Hex _].
  unfold milesToMeters. rewrite mul_spec, Hx, meters_per_mile_double.
  unfold SF64mul. cbn [SFmul xorb].
  change (ex + -42) with (ex - 42).
  pose proof (binary_round_aux_nearest false (mx * 7077952172180111) (ex - 42)
                ltac:(lia)) as Hround.
  change (binary_round_aux 53 1024) with (binary_round_aux prec emax) in Hround.
  destruct (binary_round_aux prec emax false
              (Z.pos (mx * 7077952172180111)) (ex - 42) loc_Exact)
    as [s|s| |s m e].
  - exfalso. rewrite Pos2Z.inj_mul in Hround.
    assert (2 ^ (-1074 - (ex - 42)) <= 2 ^ 42) by (apply Z.pow_le_mono_r; lia).
    change (2 ^ 42) with 4398046511104 in *. nia.
  - rewrite Pos2Z.inj_mul in Hround. exact Hround.
  - exact Hround.
  - rewrite Pos2Z.inj_mul in Hround.
    destruct Hround as (Hs & He & Hnear). split; [exact Hs|]. split; [lia|exact Hnear].
Qed.

(** The same in rationals. *)
Lemma Qpower2_pos (z : Z) : (0 < 2 ^ z)%Q.
Proof. apply Qpower_0_lt. reflexivity. Qed.

Lemma Qpower2_shift (E k : Z) :
  0 <= k -> (2 ^ (E + k) == inject_Z (2 ^ k) * 2 ^ E)%Q.
Proof.
  intros Hk. rewrite Qpower_plus by discriminate.
  rewrite (Zpower_Qpower 2 k Hk). apply Qmult_comm.
Qed.

Lemma dyadic_near (m M E e : Z) :
  E <= e ->
  2 * Z.abs (m * 2 ^ (e - E) - M) <= 2 ^ (e - E) ->
  (2 * Qabs (inject_Z m * 2 ^ e - inject_Z M * 2 ^ E) <= 2 ^ e)%Q.
Proof.
  intros He Hnear.
  replace e with (E + (e - E)) at 1 2 by lia.
  rewrite !Qpower2_shift by lia.
  pose proof (Qpower2_pos E) as HP.
  generalize dependent (2 ^ E)%Q. intros P HP.
  generalize dependent (2 ^ (e - E)). intros K Hnear.
  set (D := m * K + - M).
  assert (HX : (inject_Z m * (inject_Z K * P) - inject_Z M * P == inject_Z D * P)%Q).
  { unfold D. rewrite inject_Z_plus, inject_Z_mult, inject_Z_opp. ring. }
  rewrite HX.
  assert (Hup : (inject_Z 2 * inject_Z D <= inject_Z K)%Q)
    by (rewrite <- inject_Z_mult, <- Zle_Qle; lia).
  assert (Hlow : (- inject_Z K <= inject_Z 2 * inject_Z D)%Q)
    by (rewrite <- inject_Z_mult, <- inject_Z_opp, <- Zle_Qle; lia).
  change (inject_Z 2) with 2%Q in Hup, Hlow.
  generalize dependent (inject_Z D). generalize dependent (inject_Z K).
  intros k d _ Hup Hlow.
  apply (Qmult_le_compat_r _ _ P) in Hup, Hlow; try lra.
  apply Qabs_case; intros Hsign; lra.
Qed.

(** A double with a positive value is a positive finite double. *)
Lemma float_value_positive (d : float) (x : Q) :
  float_value d = Some x -> (0 < x)%Q ->
  exists mx ex,
    Prim2SF d = S754_finite false mx ex
    /\ x = (inject_Z (Z.pos mx) * 2 ^ ex)%Q.
Proof.
  unfold float_value.
  destruct (Prim2SF d) as [s|s| |[] m e]; intros [= <-] Hpos.
  - exfalso. revert Hpos. apply Qlt_irrefl.
  - exfalso. pose proof (Qpower2_pos e) as HP.
    change (inject_Z 2) with 2%Q in Hpos.
    generalize dependent (2 ^ e)%Q. intros P Hpos HP.
    assert (Hneg : (inject_Z (Z.neg m) <= 0)%Q)
      by (change 0%Q with (inject_Z 0); rewrite <- Zle_Qle; lia).
    apply (Qmult_le_compat_r _ _ P) in Hneg; lra.
  - eauto.
Qed.

Lemma float_value_finite (d : float) (m : positive) (e : Z) :
  Prim2SF d = S754_finite false m e ->
  float_value d = Some (inject_Z (Z.pos m) * 2 ^ e)%Q.
Proof. intros Hd. unfold float_value. rewrite Hd. reflexivity. Qed.

Lemma meters_per_mile_value :
  float_value 1609.34%float = Some (inject_Z 7077952172180111 * 2 ^ (-42))%Q.
Proof. apply float_value_finite, meters_per_mile_double. Qed.

Lemma meters_per_mile_error :
  (Qabs (inject_Z 7077952172180111 * 2 ^ (-42) - (160934 # 100)) <= 2 ^ (-43))%Q.
Proof. apply Qle_bool_iff. vm_compute. reflexivity. Qed.

Lemma product_value (mx : positive) (ex : Z) :
  (inject_Z (Z.pos mx) * 2 ^ ex * (inject_Z 7077952172180111 * 2 ^ (-42))
   == inject_Z (Z.pos mx * 7077952172180111) * 2 ^ (ex - 42))%Q.
Proof.
  replace (ex - 42) with (ex + -42) by lia.
  rewrite Qpower_plus by discriminate. rewrite inject_Z_mult.
  generalize (2 ^ ex)%Q (2 ^ (-42))%Q (inject_Z (Z.pos mx)) (inject_Z 7077952172180111).
  intros a b c d. ring.
Qed.

(** Half a unit in the last place of [v = m * 2^e] is [v * 2^-53] at most
    for a normal [v], and [2^-1075] for a subnormal one. *)
Lemma half_ulp_bound (m : positive) (e : Z) (a : Q) :
  e = -1074 \/ 2 ^ 52 <= Z.pos m ->
  (2 * a <= 2 ^ e)%Q ->
  (a <= Qmax (inject_Z (Z.pos m) * 2 ^ e * 2 ^ (-53)) (2 ^ (-1075)))%Q.
Proof.
  intros [->|Hm] Ha.
  - eapply Qle_trans; [|apply Q.le_max_r].
    assert (Hhalf : (2 ^ (-1074) == 2 * 2 ^ (-1075))%Q) by (vm_compute; reflexivity).
    rewrite Hhalf in Ha. lra.
  - eapply Qle_trans; [|apply Q.le_max_l].
    pose proof (Qpower2_pos e) as HP.
    generalize dependent (2 ^ e)%Q. intros P Ha HP.
    assert (Hm' : (inject_Z (2 ^ 52) <= inject_Z (Z.pos m))%Q)
      by (rewrite <- Zle_Qle; exact Hm).
    apply (Qmult_le_compat_r _ _ P) in Hm'; [|lra].
    assert (H53 : (2 ^ (-53) == 1 # 9007199254740992)%Q) by (vm_compute; reflexivity).
    rewrite H53.
    change (inject_Z (2 ^ 52)) with (4503599627370496 # 1)%Q in Hm'.
    lra.
Qed.

(** [milesToMeters] on a positive finite double of value [x]. *)
Lemma milesToMeters_tolerance (miles : float) (x : Q) :
  float_value miles = Some x -> (0 < x)%Q ->
  (Prim2SF (milesToMeters miles) = S754_infinity false
   /\ (2 ^ 1023 <= x * (inject_Z 7077952172180111 * 2 ^ (-42)))%Q)
  \/ exists v : Q,
       float_value (milesToMeters miles) = Some v
       /\ (0 < v)%Q
       /\ (Qabs (v - x * (inject_Z 7077952172180111 * 2 ^ (-42)))
           <= Qmax (v * 2 ^ (-53)) (2 ^ (-1075)))%Q.
Proof.
  intros Hvalue Hpos.
  destruct (float_value_positive _ _ Hvalue Hpos) as (mx & ex & Hd & ->).
  pose proof (milesToMeters_nearest miles mx ex Hd) as Hnear.
  destruct (Prim2SF (milesToMeters miles)) as [s|s| |s m e] eqn:Hr; try contradiction.
  - left. destruct Hnear as (-> & e & He & HE & Hbig). split; [reflexivity|].
    rewrite product_value.
    assert (Htop : (2 ^ 1023 == inject_Z (2 ^ 52) * 2 ^ 971)%Q)
      by (vm_compute; reflexivity).
    rewrite Htop.
    apply Qle_trans with (inject_Z (2 ^ 52) * 2 ^ e)%Q.
    + apply Qmult_le_l; [reflexivity|].
      apply Qpower_le_compat_l; [exact He|discriminate].
    + replace e with (ex - 42 + (e - (ex - 42))) at 1 by lia.
      rewrite Qpower2_shift by lia.
      rewrite Qmult_assoc, <- inject_Z_mult.
      apply Qmult_le_compat_r; [|apply Qlt_le_weak, Qpower2_pos].
      rewrite <- Zle_Qle. exact Hbig.
  - right. destruct Hnear as (-> & HE & Hnear).
    exists (inject_Z (Z.pos m) * 2 ^ e)%Q.
    split; [apply float_value_finite; exact Hr|].
    split; [apply Qmult_lt_0_compat; [reflexivity|apply Qpower2_pos]|].
    rewrite product_value.
    apply half_ulp_bound; [exact (proj2 (finite_double_exponent _ _ _ _ Hr))|].
    apply dyadic_near; assumption.
Qed.

End Rounding.

Lemma append_assoc (a b c : string) : (a +:+ b) +:+ c = a +:+ (b +:+ c).
Proof.
  induction a as [|ch a IH]; [reflexivity|].
  change (String ch ((a +:+ b) +:+ c) = String ch (a +:+ (b +:+ c))).
  rewrite IH. reflexivity.
Qed.

(** C9.  For every positive finite [settings.distance], the radius
    interpolated in the three [around:] clauses of the query is the binary64
    product of the distance and the double [c] nearest to 1609.34
    (|c - 1609.34| <= 2^-43).  That product is +Infinity only when
    distance x c is at least 2^1023; otherwise it is a positive double [v]
    within half a unit in the last place of distance x c, that is within
    v x 2^-53 (2^-1075 for a subnormal [v]), and so within that much plus
    distance x 2^-43 of distance x 1609.34. *)
Theorem query_radius_nearest_to_product (Number_toString : float -> string)
    (settings : Settings.t) (lat lng : float) (x : Q) :
  float_value (Settings.distance settings) = Some x -> (0 < x)%Q ->
  build_query Number_toString settings lat lng
  = newline +:+
    "        [out:json];" +:+ newline +:+
    "        (" +:+ newline +:+
    "          node[" +:+ quote +:+ "amenity" +:+ quote +:+ "=" +:+ quote
      +:+ "restaurant" +:+ quote +:+ "](around:"
      +:+ Number_toString (query_radius settings) +:+ ","
      +:+ Number_toString lat +:+ "," +:+ Number_toString lng +:+ ");" +:+ newline +:+
    "          way[" +:+ quote +:+ "amenity" +:+ quote +:+ "=" +:+ quote
      +:+ "restaurant" +:+ quote +:+ "](around:"
      +:+ Number_toString (query_radius settings) +:+ ","
      +:+ Number_toString lat +:+ "," +:+ Number_toString lng +:+ ");" +:+ newline +:+
    "          relation[" +:+ quote +:+ "amenity" +:+ quote +:+ "=" +:+ quote
      +:+ "restaurant" +:+ quote +:+ "](around:"
      +:+ Number_toString (query_radius settings) +:+ ","
      +:+ Number_toString lat +:+ "," +:+ Number_toString lng +:+ ");" +:+ newline +:+
    "        );" +:+ newline +:+
    "        out body;" +:+ newline +:+
    "        >;" +:+ newline +:+
    "        out skel qt;" +:+ newline +:+
    "      "
  /\ exists c : Q,
       float_value 1609.34%float = Some c
       /\ (Qabs (c - (160934 # 100)) <= 2 ^ (-43))%Q
       /\ ((Prim2SF (query_radius settings) = S754_infinity false
            /\ (2 ^ 1023 <= x * c)%Q)
           \/ exists v : Q,
                float_value (query_radius settings) = Some v
                /\ (0 < v)%Q
                /\ (Qabs (v - x * c) <= Qmax (v * 2 ^ (-53)) (2 ^ (-1075)))%Q
                /\ (Qabs (v - x * (160934 # 100))
                    <= Qmax (v * 2 ^ (-53)) (2 ^ (-1075)) + x * 2 ^ (-43))%Q).
Proof.
  intros Hvalue Hpos. split.
  { unfold build_query, overpassQuery. cbv zeta.
    rewrite !append_assoc. reflexivity. }
  exists (inject_Z 7077952172180111 * 2 ^ (-42))%Q.
  split; [exact meters_per_mile_value|].
  split; [exact meters_per_mile_error|].
  unfold query_radius.
  destruct (milesToMeters_tolerance _ _ Hvalue Hpos) as [Hinf|(v & Hv & Hvpos & Hnear)];
    [left; exact Hinf|right].
  exists v. split; [exact Hv|]. split; [exact Hvpos|]. split; [exact Hnear|].
  pose proof meters_per_mile_error as Herr.
  generalize dependent (inject_Z 7077952172180111 * 2 ^ (-42))%Q. intros c Hnear Herr.
  generalize dependent (Qmax (v * 2 ^ (-53)) (2 ^ (-1075))). intros bound Hnear.
  generalize dependent (2 ^ (-43))%Q. intros t Herr.
  apply Qabs_Qle_condition in Herr as [Hlow Hup].
  apply (Qmult_le_l _ _ x Hpos) in Hlow, Hup.
  apply Qabs_Qle_condition in Hnear as [Hlow' Hup'].
  apply Qabs_Qle_condition. split; lra.
Qed.

(** With the default radius of half a mile: 804.67 metres, exactly half the
    constant. *)
Lemma milesToMeters_default :
  milesToMeters (Settings.distance defaultSettings) = 804.67%float
  /\ float_value (milesToMeters 0.5%float)
     = Some (Qmult (inject_Z 7077952172180111) (Qpower (inject_Z 2) (-43))).
Proof. split; by_computation. Qed.

(** At the ends of the range: the least positive double gives the subnormal
    1609 x 2^-1074 (the fraction .34 is lost), 1.1e305 miles still gives a
    finite radius, 1e308 miles gives +Infinity. *)
Lemma milesToMeters_extremes :
  Prim2SF (milesToMeters 5e-324%float) = S754_finite false 1609 (-1074)
  /\ Prim2SF (milesToMeters 1.1e305%float) = S754_finite false 8869817848366310 971
  /\ Prim2SF (milesToMeters 1e308%float) = S754_infinity false.
Proof. split; [by_computation|]. split; by_computation. Qed.

(** ** Further properties of the pipeline and the wheel *)

(** The level the price filter reads is the price level, when that is a
    number; a NaN level reads as 0. *)
Lemma to_restaurant_level toS toF settings e r tags :
  el_tags e = Some tags ->
  to_restaurant toS toF settings e = Some r ->
  (priceLevel (tags !! "price") = NaN -> String.length (price r) = 0)
  /\ (forall k, priceLevel (tags !! "price") = of_Z k ->
        String.length (price r) = Z.to_nat k).
Proof.
  unfold to_restaurant. intros -> Hr. cbn in Hr.
  destruct (tags !! "name") as [n|]; [|discriminate]. cbn in Hr.
  destruct (priceSign_length (tags !! "price")) as (sign & Hsign & Hnan & Hk).
  rewrite Hsign in Hr. cbn in Hr. injection Hr as <-. cbn [price].
  split; [intros H; rewrite (Hnan H); reflexivity|exact Hk].
Qed.

(** The scenario of three raw records A "$$", A "$$$", B "1" under the range
    "1,2": levels 2, 3, 1; the second A fails the filter; A and B remain. *)
Lemma process_scenario :
  names_and_prices
    (process plain_toString plain_toFixed exact_round
       {| Settings.distance := 0.5%float; Settings.price := Some "1,2";
          Settings.dietary := "" |}
       (Some [sample_element "A" "$$"; sample_element "A" "$$$";
              sample_element "B" "1"]))
  = Some [("A", "$$"); ("B", "$")].
Proof. by_computation. Qed.

(** A restaurant whose price tag is one space gets the empty dollar string:
    it is dropped by the default range "2,3", and shown without a price when
    the range is empty. *)
Lemma process_blank_price_tag :
  names_and_prices
    (process plain_toString plain_toFixed exact_round defaultSettings
       (Some [sample_element "A" " "]))
  = Some []
  /\ names_and_prices
       (process plain_toString plain_toFixed exact_round
          {| Settings.distance := 0.5%float; Settings.price := Some "";
             Settings.dietary := "" |}
          (Some [sample_element "A" " "]))
     = Some [("A", "")].
Proof. split; by_computation. Qed.

(** Deduplication leaves a list of distinct names alone, so running it twice
    changes nothing more. *)
Lemma dedup_NoDup_id rs : NoDup (name <$> rs) -> dedup rs = rs.
Proof.
  induction rs as [|r rs IH] using rev_ind; intros Hnd; [reflexivity|].
  rewrite fmap_app in Hnd. apply NoDup_app in Hnd as (Hrs & Hfresh & _).
  rewrite dedup_snoc, IH by exact Hrs.
  destruct (decide (name r ∈ name <$> rs)) as [Hin|Hin]; [|reflexivity].
  exfalso. apply (Hfresh _ Hin). left.
Qed.

Lemma dedup_idempotent rs : dedup (dedup rs) = dedup rs.
Proof. apply dedup_NoDup_id, dedup_NoDup. Qed.

(** The objects on the wheel have no [timestamp] key. *)
Lemma wheel_objects_no_timestamp r o :
  wheel_entry r !! "timestamp" = None /\ reinjected o !! "timestamp" = None.
Proof.
  unfold wheel_entry, reinjected. split.
  - rewrite lookup_insert_ne by discriminate. apply lookup_singleton_ne. discriminate.
  - rewrite lookup_insert_ne by discriminate. apply lookup_singleton_ne. discriminate.
Qed.

(** [restaurantHistory[index]] past the end is [undefined]. *)
Lemma history_get_out_of_range index st :
  length (restaurantHistory st) <= index -> history_get index st = None.
Proof. intros Hi. apply lookup_ge_None. exact Hi. Qed.

(** The wheel never holds more than 8 options. *)
Lemma updateWheel_at_most_8 engine bits random rs st :
  length (options (updateWheel engine bits random rs st)) <= 8.
Proof.
  unfold updateWheel; cbn [options app]. rewrite length_fmap, length_take. lia.
Qed.

Lemma addRestaurantToWheel_at_most_8 restaurant st :
  length (options st) <= 8 ->
  length (options (addRestaurantToWheel restaurant st)) <= 8.
Proof.
  intros Hlen. unfold addRestaurantToWheel; cbn [options].
  rewrite length_app. cbn [length]. case_decide as Hfull; [|lia].
  destruct (last_split (options st)) as (front & x & Hopts).
  { intros Hnil. rewrite Hnil in Hfull. cbn in Hfull. lia. }
  rewrite Hopts in *. rewrite removelast_snoc.
  rewrite length_app in Hlen. cbn [length] in Hlen. lia.
Qed.

(** Straight insertion sort rearranges its input, whatever the comparator
    answers. *)
Lemma is_order_of_Permutation n order : order ≡ₚ seq 0 n -> is_order n order = true.
Proof.
  intros Hperm. unfold is_order. apply andb_true_iff. split.
  - apply bool_decide_eq_true. rewrite (Permutation_length Hperm). apply length_seq.
  - apply forallb_forall. intros i Hi. apply bool_decide_eq_true.
    rewrite Hperm. apply list_elem_of_In. exact Hi.
Qed.

Lemma insert_plan_ok n x before after k :
  (forall s, s ≡ₚ rev before ++ x :: after -> sorter_ok n (k s) = true) ->
  sorter_ok n (insert_plan x before after k) = true.
Proof.
  revert after. induction before as [|y before IH]; intros after Hk; cbn [insert_plan].
  - apply Hk. reflexivity.
  - cbn [sorter_ok]. rewrite (Hk _ (reflexivity _)). cbn [andb].
    apply IH. intros s Hs. apply Hk. rewrite Hs. cbn [rev].
    rewrite <- app_assoc. cbn [app]. apply Permutation_app_head, perm_swap.
Qed.

Lemma insertion_plan_ok n todo sorted :
  sorted ++ todo ≡ₚ seq 0 n -> sorter_ok n (insertion_plan todo sorted) = true.
Proof.
  revert sorted. induction todo as [|x todo IH]; intros sorted Hperm; cbn [insertion_plan].
  - apply is_order_of_Permutation. rewrite app_nil_r in Hperm. exact Hperm.
  - apply insert_plan_ok. intros s Hs. apply IH.
    rewrite Hs, rev_involutive, <- app_assoc. exact Hperm.
Qed.

Lemma insertion_sort_ok n : sorter_ok n (insertion_sort n) = true.
Proof. apply insertion_plan_ok. reflexivity. Qed.

(** Nine candidates under insertion sort: eight options, whatever the draws;
    eight candidates: all eight. *)
Lemma updateWheel_nine_candidates bits random st :
  length (options (updateWheel insertion_sort bits random nine_candidates st)) = 8
  /\ length (options (updateWheel insertion_sort bits random (take 8 nine_candidates) st))
     = 8.
Proof.
  split; rewrite updateWheel_length by apply insertion_sort_ok; reflexivity.
Qed.

(** ** Instances *)

Lemma updateWheel_options_holds :
  sorter_ok 3 (insertion_sort 3) = true
  /\ length (options (updateWheel insertion_sort 53 (fun _ => 0%N)
                        three_candidates sample_state)) = 3.
Proof.
  split; [by_computation|].
  apply (updateWheel_options insertion_sort 53 (fun _ => 0%N)
           three_candidates sample_state).
  by_computation.
Defined.

Lemma sort_shuffle_not_uniform_holds :
  ~ (forall p q : list nat,
       p ≡ₚ seq 0 3 -> q ≡ₚ seq 0 3 ->
       count_order 53 3 (insertion_sort 3) p = count_order 53 3 (insertion_sort 3) q).
Proof.
  apply (sort_shuffle_not_uniform insertion_sort 53 3 three_candidates).
  - reflexivity.
  - by_computation.
Defined.

Lemma price_filter_inclusive_holds :
  (Number_ exact_round <$> split "2,3" ","%char) !! 0 = Some (Finite 2%Q)
  /\ (Number_ exact_round <$> split "2,3" ","%char) !! 1 = Some (Finite 3%Q)
  /\ ((forall r : restaurant,
          r ∈ price_filter exact_round (Some "2,3") (sample "D" "$$$$" :: three_candidates)
          <-> r ∈ sample "D" "$$$$" :: three_candidates
              /\ (2 <= inject_Z (Z.of_nat (String.length (price r))))%Q
              /\ (inject_Z (Z.of_nat (String.length (price r))) <= 3)%Q)
      /\ sublist (price_filter exact_round (Some "2,3") (sample "D" "$$$$" :: three_candidates))
           (sample "D" "$$$$" :: three_candidates)).
Proof.
  split; [by_computation|]. split; [by_computation|].
  apply (price_filter_inclusive exact_round (sample "D" "$$$$" :: three_candidates)).
  - discriminate.
  - by_computation.
  - by_computation.
Defined.

Lemma addRestaurantToWheel_full_holds :
  length (options full_wheel) = 8
  /\ options (addRestaurantToWheel saved_entry full_wheel)
     = (sample_option <$> ["A"; "B"; "C"; "D"; "E"; "F"; "G"])
       ++ [ {[ "name" := VString "A";
               "mapUrl" := VString "https://www.openstreetmap.org/" ]} ]
  /\ saved_entry !! "timestamp" = Some (VString "2024-05-01T12:00:00.000Z")
  /\ exists kept evicted,
       options full_wheel = kept ++ [evicted]
       /\ options (addRestaurantToWheel saved_entry full_wheel)
          = kept ++ [reinjected saved_entry]
       /\ length (options (addRestaurantToWheel saved_entry full_wheel)) = 8
       /\ restaurantHistory (addRestaurantToWheel saved_entry full_wheel)
          = restaurantHistory full_wheel
       /\ length kept = 7
       /\ options full_wheel !! 7 = Some evicted
       /\ (forall i, i < 7 ->
             options (addRestaurantToWheel saved_entry full_wheel) !! i
             = options full_wheel !! i)
       /\ (exists added,
             options (addRestaurantToWheel saved_entry full_wheel) !! 7 = Some added
             /\ dom added = ({[ "name"; "mapUrl" ]} : gset string)
             /\ added !! "name" = Some (default VUndefined (saved_entry !! "name"))
             /\ added !! "mapUrl" = Some (default VUndefined (saved_entry !! "mapUrl"))
             /\ (forall k : string, k <> "name" -> k <> "mapUrl" -> added !! k = None)).
Proof.
  split; [reflexivity|]. split; [by_computation|]. split; [by_computation|].
  apply (addRestaurantToWheel_full saved_entry full_wheel). reflexivity.
Defined.

Lemma addRestaurantToWheel_room_holds :
  length (options seven_option_wheel) < 8
  /\ options (addRestaurantToWheel saved_entry seven_option_wheel)
     = (sample_option <$> ["A"; "B"; "C"; "D"; "E"; "F"; "G"])
       ++ [ {[ "name" := VString "A";
               "mapUrl" := VString "https://www.openstreetmap.org/" ]} ]
  /\ options (addRestaurantToWheel saved_entry seven_option_wheel)
     = options seven_option_wheel ++ [reinjected saved_entry]
  /\ length (options (addRestaurantToWheel saved_entry seven_option_wheel))
     = S (length (options seven_option_wheel))
  /\ length (options (addRestaurantToWheel saved_entry seven_option_wheel)) <= 8
  /\ (forall i o, options seven_option_wheel !! i = Some o ->
        options (addRestaurantToWheel saved_entry seven_option_wheel) !! i = Some o)
  /\ restaurantHistory (addRestaurantToWheel saved_entry seven_option_wheel)
     = restaurantHistory seven_option_wheel
  /\ take (length (options seven_option_wheel))
          (options (addRestaurantToWheel saved_entry seven_option_wheel))
     = options seven_option_wheel
  /\ (exists added,
        options (addRestaurantToWheel saved_entry seven_option_wheel)
          !! length (options seven_option_wheel) = Some added
        /\ dom added = ({[ "name"; "mapUrl" ]} : gset string)
        /\ added !! "name" = Some (default VUndefined (saved_entry !! "name"))
        /\ added !! "mapUrl" = Some (default VUndefined (saved_entry !! "mapUrl"))
        /\ (forall k : string, k <> "name" -> k <> "mapUrl" -> added !! k = None)).
Proof.
  assert (Hroom : length (options seven_option_wheel) < 8) by (cbn; lia).
  split; [exact Hroom|]. split; [by_computation|].
  apply (addRestaurantToWheel_room saved_entry seven_option_wheel Hroom).
Defined.

(** At 1e308 miles the product overflows: the radius is +Infinity, no
    finite number at all. *)
Lemma query_radius_overflows :
  (exists x : Q,
     float_value (Settings.distance huge_distance) = Some x /\ (0 < x)%Q)
  /\ Prim2SF (query_radius huge_distance) = S754_infinity false
  /\ float_value (query_radius huge_distance) = None
  /\ ~ (forall (settings : Settings.t) (x : Q),
          float_value (Settings.distance settings) = Some x -> (0 < x)%Q ->
          exists v : Q, float_value (query_radius settings) = Some v).
Proof.
  assert (Hvalue : float_value (Settings.distance huge_distance)
                   = Some (inject_Z 5010420900022432 * 2 ^ 971)%Q)
    by (vm_compute; reflexivity).
  assert (Hpos : (0 < inject_Z 5010420900022432 * 2 ^ 971)%Q)
    by (apply Qmult_lt_0_compat; [reflexivity|apply Qpower2_pos]).
  assert (Hnone : float_value (query_radius huge_distance) = None)
    by (vm_compute; reflexivity).
  split; [eauto|]. split; [vm_compute; reflexivity|]. split; [exact Hnone|].
  intros Hall. destruct (Hall huge_distance _ Hvalue Hpos) as [v Hv].
  rewrite Hnone in Hv. discriminate.
Qed.

Lemma query_radius_nearest_to_product_holds :
  float_value (Settings.distance defaultSettings)
  = Some (4503599627370496 # 9007199254740992)%Q
  /\ (0 < 4503599627370496 # 9007199254740992)%Q
  /\ query_radius defaultSettings = 804.67%float
  /\ exists c : Q,
       float_value 1609.34%float = Some c
       /\ (Qabs (c - (160934 # 100)) <= 2 ^ (-43))%Q
       /\ ((Prim2SF (query_radius defaultSettings) = S754_infinity false
            /\ (2 ^ 1023 <= (4503599627370496 # 9007199254740992) * c)%Q)
           \/ exists v : Q,
                float_value (query_radius defaultSettings) = Some v
                /\ (0 < v)%Q
                /\ (Qabs (v - (4503599627370496 # 9007199254740992) * c)
                    <= Qmax (v * 2 ^ (-53)) (2 ^ (-1075)))%Q
                /\ (Qabs (v - (4503599627370496 # 9007199254740992) * (160934 # 100))
                    <= Qmax (v * 2 ^ (-53)) (2 ^ (-1075))
                       + (4503599627370496 # 9007199254740992) * 2 ^ (-43))%Q).
Proof.
  assert (Hvalue : float_value (Settings.distance defaultSettings)
                   = Some (4503599627370496 # 9007199254740992)%Q)
    by (vm_compute; reflexivity).
  assert (Hpos : (0 < 4503599627370496 # 9007199254740992)%Q) by reflexivity.
  split; [exact Hvalue|]. split; [exact Hpos|]. split; [vm_compute; reflexivity|].
  exact (proj2 (query_radius_nearest_to_product plain_toString defaultSettings
                  40.0%float (-74.0)%float _ Hvalue Hpos)).
Defined.

Lemma saveToHistory_get_roundtrip_holds :
  sample_option "A" !! "timestamp" = None
  /\ exists e : gmap string value,
       history_get 0 (saveToHistory "2024-05-01T12:00:00.000Z" (sample_option "A")
                        sample_state) = Some e
       /\ (forall k : string, k <> "timestamp" -> e !! k = sample_option "A" !! k)
       /\ e !! "timestamp" = Some (VString "2024-05-01T12:00:00.000Z")
       /\ dom e = {["timestamp"]} ∪ dom (sample_option "A")
       /\ size e = S (size (sample_option "A"))
       /\ delete "timestamp" e = sample_option "A".
Proof.
  split; [by_computation|].
  apply (saveToHistory_get_roundtrip _ (sample_option "A") sample_state).
  by_computation.
Defined.

(** * Further coverage: the pipeline *)

Lemma filter_nil_all_false {A} (f : A -> bool) (l : list A) :
  List.filter f l = [] -> forall x, x ∈ l -> f x = false.
Proof.
  intros Hnil x Hx. destruct (f x) eqn:Hfx; [|reflexivity].
  assert (Hin : In x (List.filter f l)) by (apply filter_In; split;
    [apply list_elem_of_In; exact Hx|exact Hfx]).
  rewrite Hnil in Hin. destruct Hin.
Qed.

Lemma filter_all_true {A} (f : A -> bool) (l : list A) :
  (forall x, x ∈ l -> f x = true) -> List.filter f l = l.
Proof.
  induction l as [|x l IH]; intros Hall; [reflexivity|]. cbn [List.filter].
  rewrite (Hall x) by left. f_equal. apply IH. intros y Hy. apply Hall. right. exact Hy.
Qed.

Lemma mapM_to_restaurant_total toS toF settings es :
  (forall e, e ∈ es -> is_named_restaurant e = true) ->
  is_Some (mapM (to_restaurant toS toF settings) es).
Proof.
  intros Hall. apply mapM_is_Some_2, Forall_forall. intros e He.
  apply to_restaurant_total, Hall, He.
Qed.

Lemma process_nonempty toS toF round settings e es :
  process toS toF round settings (Some (e :: es))
  = match List.filter is_named_restaurant (e :: es) with
    | [] => Some NoNamedRestaurants
    | named =>
        restaurants ← mapM (to_restaurant toS toF settings) named;
        Some (Restaurants (dedup (price_filter round (Settings.price settings) restaurants)))
    end.
Proof. reflexivity. Qed.

(** X1.  [fetchRestaurants] from the parsed response on never throws, and
    ends in exactly one of three ways: no elements at all (absent or empty
    array), elements but none tagged as a restaurant with a name, or a list
    for the wheel as soon as one element is. *)
Theorem process_outcome (toS : float -> string) (toF : float -> nat -> string)
    (round : Q -> number) (settings : Settings.t) (elements : option (list element)) :
  ((elements = None \/ elements = Some [])
   /\ process toS toF round settings elements = Some NoRestaurants)
  \/ (exists es, elements = Some es /\ es <> []
        /\ (forall e, e ∈ es -> is_named_restaurant e = false)
        /\ process toS toF round settings elements = Some NoNamedRestaurants)
  \/ (exists es l, elements = Some es
        /\ (exists e, e ∈ es /\ is_named_restaurant e = true)
        /\ process toS toF round settings elements = Some (Restaurants l)).
Proof.
  destruct elements as [[|e es]|]; [left; split; [right|]; reflexivity| |
                                    left; split; [left|]; reflexivity].
  right. rewrite process_nonempty.
  destruct (List.filter is_named_restaurant (e :: es)) as [|e0 named] eqn:Hfilter.
  - left. exists (e :: es). split; [reflexivity|]. split; [discriminate|].
    split; [apply filter_nil_all_false; exact Hfilter|reflexivity].
  - right. destruct (mapM_to_restaurant_total toS toF settings (e0 :: named))
      as [restaurants Hmap].
    { intros x Hx. apply list_elem_of_In in Hx. rewrite <- Hfilter in Hx.
      apply filter_In in Hx. tauto. }
    exists (e :: es). eexists. split; [reflexivity|]. split.
    + exists e0. assert (Hin : In e0 (List.filter is_named_restaurant (e :: es)))
        by (rewrite Hfilter; left; reflexivity).
      apply filter_In in Hin. split; [apply list_elem_of_In|]; tauto.
    + rewrite Hmap. reflexivity.
Qed.

(** The dollar string is made of at most four dollar signs. *)
Lemma priceSign_shape tag :
  exists k, k <= 4 /\ String_repeat "$" (priceLevel tag) = Some (repeat_string "$" k).
Proof.
  destruct (priceLevel_cases tag) as [[Hnan _] | (k & Hk & Heq)].
  - exists 0. rewrite Hnan. split; [lia|reflexivity].
  - exists (Z.to_nat k). rewrite Heq. split; [lia|].
    unfold String_repeat, of_Z, inject_Z; cbn [Qnum Qden]. rewrite Z.quot_1_r.
    destruct (Z.ltb_spec k 0); [lia|reflexivity].
Qed.

Lemma to_restaurant_fields toS toF settings e r :
  is_named_restaurant e = true ->
  to_restaurant toS toF settings e = Some r ->
  name r <> EmptyString
  /\ (exists tags, el_tags e = Some tags /\ tags !! "name" = Some (name r))
  /\ (exists k, k <= 4 /\ price r = repeat_string "$" k)
  /\ (osmType r = "node" \/ osmType r = "way" \/ osmType r = "relation").
Proof.
  unfold is_named_restaurant, to_restaurant. intros He Hr.
  destruct (el_tags e) as [tags|]; [|discriminate]. cbn in Hr.
  apply andb_true_iff in He as [_ Hname].
  destruct (tags !! "name") as [n|] eqn:Hn; [|discriminate]. cbn in Hr.
  destruct (priceSign_shape (tags !! "price")) as (k & Hk & Hsign).
  rewrite Hsign in Hr. cbn in Hr. injection Hr as <-. cbn [name price osmType].
  split; [destruct n; [discriminate|discriminate]|].
  split; [eauto|]. split; [eauto|].
  destruct (String.eqb (el_type e) "node"); [tauto|].
  destruct (String.eqb (el_type e) "way"); tauto.
Qed.

(** X2.  Every restaurant handed to the wheel comes from an element tagged as
    a restaurant with a name; its name is that tag and is not empty, its
    price is a string of at most four dollar signs, its kind is node, way or
    relation; and no two restaurants of the list share a name. *)
Theorem process_restaurants_wellformed (toS : float -> string)
    (toF : float -> nat -> string) (round : Q -> number) (settings : Settings.t)
    (es : list element) (l : list restaurant) :
  process toS toF round settings (Some es) = Some (Restaurants l) ->
  NoDup (name <$> l)
  /\ forall r, r ∈ l ->
       name r <> EmptyString
       /\ (exists k, k <= 4 /\ price r = repeat_string "$" k)
       /\ (osmType r = "node" \/ osmType r = "way" \/ osmType r = "relation")
       /\ exists e tags, e ∈ es /\ el_tags e = Some tags
            /\ tags !! "amenity" = Some "restaurant"
            /\ tags !! "name" = Some (name r).
Proof.
  intros Hp. destruct es as [|e es]; [discriminate|].
  rewrite process_nonempty in Hp.
  destruct (List.filter is_named_restaurant (e :: es)) as [|e0 named] eqn:Hfilter;
    [discriminate|].
  destruct (mapM (to_restaurant toS toF settings) (e0 :: named)) as [restaurants|] eqn:Hmap;
    [|discriminate].
  cbn in Hp. injection Hp as <-. split; [apply dedup_NoDup|].
  intros r Hr.
  assert (Hin : r ∈ restaurants).
  { eapply sublist_subseteq; [|exact Hr].
    etransitivity; [apply dedup_from_sublist|apply price_filter_sublist]. }
  apply mapM_Some_1 in Hmap.
  apply list_elem_of_lookup in Hin as [i Hi].
  destruct (Forall2_lookup_r _ _ _ _ _ Hmap Hi) as (x & Hx & Hto).
  assert (Hxin : In x (List.filter is_named_restaurant (e :: es))).
  { rewrite Hfilter. apply list_elem_of_In, list_elem_of_lookup. eauto. }
  apply filter_In in Hxin as [Hxes Hnamed].
  destruct (to_restaurant_fields toS toF settings x r Hnamed Hto)
    as (Hne & (tags & Htags & Hname) & Hprice & Htype).
  split; [exact Hne|]. split; [exact Hprice|]. split; [exact Htype|].
  exists x, tags. split; [apply list_elem_of_In; exact Hxes|].
  split; [exact Htags|]. split; [|exact Hname].
  unfold is_named_restaurant in Hnamed. rewrite Htags in Hnamed.
  apply andb_true_iff in Hnamed as [Ham _]. apply bool_decide_eq_true in Ham. exact Ham.
Qed.

(** X3.  What lines 97-110 guarantee for every price tag: the level is an
    integer from 1 to 4, with the single exception of a tag without a dollar
    sign that converts to a number while [parseInt] reads no integer from it,
    where the level is NaN.  A tag with dollar signs gives their number, at
    most 4; no tag or an empty tag gives 2. *)
Theorem priceLevel_integer_or_NaN (tag : option string) :
  ((exists k, (1 <= k <= 4)%Z /\ priceLevel tag = of_Z k)
   \/ (priceLevel tag = NaN
       /\ exists p, tag = Some p /\ p <> EmptyString
            /\ includes p "$"%char = false /\ isNaN p = false /\ parseInt p = NaN))
  /\ (forall p, tag = Some p -> includes p "$"%char = true ->
        priceLevel tag = of_Z (Z.min (Z.of_nat (occurrences p "$"%char)) 4))
  /\ (tag = None \/ tag = Some EmptyString -> priceLevel tag = of_Z 2).
Proof.
  split; [|split].
  - destruct (priceLevel_cases tag) as [Hnan|Hint]; [right|left]; assumption.
  - intros p -> Hinc. apply priceLevel_dollars. exact Hinc.
  - intros Htag. apply priceLevel_default. tauto.
Qed.

Lemma price_filter_as_filter round range :
  exists f, forall rs, price_filter round range rs = List.filter f rs.
Proof.
  destruct range as [p|]; [destruct (truthy p) eqn:Hp|].
  - eexists. intros rs. unfold price_filter. rewrite Hp. reflexivity.
  - exists (fun _ => true). intros rs. unfold price_filter. rewrite Hp.
    symmetry. apply filter_all_true. reflexivity.
  - exists (fun _ => true). intros rs. symmetry. apply filter_all_true. reflexivity.
Qed.

Lemma price_filter_fixed round range rs l :
  l ⊆ price_filter round range rs -> price_filter round range l = l.
Proof.
  destruct (price_filter_as_filter round range) as [f Hf]. rewrite !Hf.
  intros Hsub. apply filter_all_true. intros x Hx.
  apply Hsub, list_elem_of_In, filter_In in Hx. tauto.
Qed.

(** X4.  Filtering by price and deduplicating a list that already went
    through both changes nothing, for every range; deduplication alone is
    idempotent too. *)
Theorem filter_dedup_idempotent (round : Q -> number) (range : option string)
    (rs : list restaurant) :
  dedup (price_filter round range (dedup (price_filter round range rs)))
  = dedup (price_filter round range rs)
  /\ dedup (dedup rs) = dedup rs.
Proof.
  split; [|apply dedup_NoDup_id, dedup_NoDup].
  rewrite (price_filter_fixed round range rs).
  - apply dedup_NoDup_id, dedup_NoDup.
  - apply sublist_subseteq, dedup_from_sublist.
Qed.

(** X5.  The filter runs before the deduplication, so a name reaches the
    wheel exactly when some restaurant of that name is within the range,
    first of its name or not. *)
Theorem filter_then_dedup_names (round : Q -> number) (rs : list restaurant)
    (p : string) (minPrice maxPrice : Q) (n : string) :
  p <> EmptyString ->
  (Number_ round <$> split p ","%char) !! 0 = Some (Finite minPrice) ->
  (Number_ round <$> split p ","%char) !! 1 = Some (Finite maxPrice) ->
  n ∈ name <$> dedup (price_filter round (Some p) rs)
  <-> exists r, r ∈ rs /\ name r = n
        /\ (minPrice <= inject_Z (Z.of_nat (String.length (price r))))%Q
        /\ (inject_Z (Z.of_nat (String.length (price r))) <= maxPrice)%Q.
Proof.
  intros Hp Hmin Hmax. rewrite dedup_names, list_elem_of_fmap. split.
  - intros (r & -> & Hr). apply (price_filter_elem round rs p _ _ r Hp Hmin Hmax) in Hr.
    exists r. tauto.
  - intros (r & Hr & <- & Hlo & Hhi). exists r. split; [reflexivity|].
    apply (price_filter_elem round rs p _ _ r Hp Hmin Hmax). tauto.
Qed.

Lemma split_no_separator s c : includes s c = false -> split s c = [s].
Proof.
  induction s as [|a s IH]; [reflexivity|]. cbn [includes split].
  destruct (Ascii.eqb a c); [discriminate|]. intros Hinc. rewrite (IH Hinc). reflexivity.
Qed.

(** X6.  A non-empty range without a comma has no second part: the upper
    bound is [undefined], every comparison with it is false, and the filter
    drops every restaurant. *)
Theorem price_filter_without_comma (round : Q -> number) (p : string)
    (rs : list restaurant) :
  p <> EmptyString -> includes p ","%char = false ->
  price_filter round (Some p) rs = []
  /\ dedup (price_filter round (Some p) rs) = [].
Proof.
  intros Hp Hcomma.
  assert (Hnil : price_filter round (Some p) rs = []).
  { apply price_filter_missing_bound; [exact Hp|].
    rewrite (split_no_separator p _ Hcomma). reflexivity. }
  split; [exact Hnil|]. rewrite Hnil. reflexivity.
Qed.

Lemma default_bounds round :
  Number_ round <$> split "2,3" ","%char = [round 2%Q; round 3%Q].
Proof. reflexivity. Qed.

(** X7.  Under the default range "2,3", with a conversion that is exact on 2
    and 3: a restaurant stays exactly when its price is two or three dollar
    signs long; in particular a restaurant whose element has no price tag
    gets "$$" and stays. *)
Theorem default_range_keeps_untagged (toS : float -> string)
    (toF : float -> nat -> string) (round : Q -> number) (settings : Settings.t)
    (rs : list restaurant) :
  round 2%Q = Finite 2%Q -> round 3%Q = Finite 3%Q ->
  (forall r, r ∈ price_filter round (Settings.price defaultSettings) rs
             <-> r ∈ rs /\ 2 <= String.length (price r) <= 3)
  /\ (forall e tags r,
        el_tags e = Some tags -> tags !! "price" = None ->
        to_restaurant toS toF settings e = Some r ->
        price r = "$$"
        /\ (r ∈ rs -> r ∈ price_filter round (Settings.price defaultSettings) rs)).
Proof.
  intros H2 H3.
  assert (Hiff : forall r, r ∈ price_filter round (Settings.price defaultSettings) rs
                           <-> r ∈ rs /\ 2 <= String.length (price r) <= 3).
  { intros r. cbn [defaultSettings Settings.price].
    rewrite (price_filter_elem round rs "2,3" 2%Q 3%Q r);
      [|discriminate|rewrite default_bounds, <- H2; reflexivity
       |rewrite default_bounds, <- H3; reflexivity].
    change 2%Q with (inject_Z 2). change 3%Q with (inject_Z 3).
    rewrite <- !Zle_Qle. split; intros (? & ? & ?); (split; [assumption|lia]). }
  split; [exact Hiff|].
  intros e tags r Htags Hprice Hto.
  assert (Hr : price r = "$$").
  { unfold to_restaurant in Hto. rewrite Htags in Hto. cbn in Hto.
    destruct (tags !! "name"); [|discriminate]. cbn in Hto.
    rewrite Hprice in Hto. cbn in Hto. injection Hto as <-. reflexivity. }
  split; [exact Hr|]. intros Hin. apply Hiff. rewrite Hr. cbn. split; [exact Hin|lia].
Qed.

(** * Further coverage: the history and the wheel *)

Lemma take_cons_take {A} (n : nat) (x : A) (l : list A) :
  take (S n) (x :: take (S n) l) = take (S n) (x :: l).
Proof. cbn [take]. rewrite take_take. f_equal. f_equal. lia. Qed.

Lemma saveAll_history calls st :
  length (restaurantHistory st) <= 20 ->
  restaurantHistory (saveAll calls st)
  = take 20 (rev (entries calls) ++ restaurantHistory st).
Proof.
  intros Hst. induction calls as [|[now c] calls IH] using rev_ind.
  - cbn. symmetry. apply take_ge. exact Hst.
  - rewrite saveAll_snoc, saveToHistory_history, IH.
    unfold entries. rewrite fmap_app, rev_app_distr. cbn [fmap list_fmap rev app fst snd].
    apply (take_cons_take 19).
Qed.

(** X8.  From a log of at most 20 entries, after any run of saves the log
    is exactly the newest 20 of: the entries of the run, newest first, then
    the old log.  So with fewer than 20 in all nothing is lost, older entries
    keep their order, and the wheel is untouched. *)
Theorem saveAll_keeps_latest_20 (calls : list (string * gmap string value))
    (st : state) :
  length (restaurantHistory st) <= 20 ->
  restaurantHistory (saveAll calls st)
    = take 20 (rev (entries calls) ++ restaurantHistory st)
  /\ length (restaurantHistory (saveAll calls st))
     = (length calls + length (restaurantHistory st)) `min` 20
  /\ (length calls + length (restaurantHistory st) <= 20 ->
      restaurantHistory (saveAll calls st) = rev (entries calls) ++ restaurantHistory st)
  /\ options (saveAll calls st) = options st.
Proof.
  intros Hst. pose proof (saveAll_history calls st Hst) as Hhist.
  assert (Hlen : length (rev (entries calls) ++ restaurantHistory st)
                 = length calls + length (restaurantHistory st)).
  { unfold entries. rewrite length_app, length_rev, length_fmap. reflexivity. }
  split; [exact Hhist|]. split; [rewrite Hhist, length_take, Hlen; lia|].
  split; [|apply saveAll_options].
  intros Hfew. rewrite Hhist. apply take_ge. rewrite Hlen. exact Hfew.
Qed.

(** X9.  Saving an object that already has a [timestamp] (a history entry
    saved again) replaces the old time by the new one: the entry read back
    has the same keys as the object, the new timestamp, and every other key
    unchanged. *)
Theorem saveToHistory_replaces_timestamp (now : string) (c : gmap string value)
    (old : value) (st : state) :
  c !! "timestamp" = Some old ->
  exists e : gmap string value,
    history_get 0 (saveToHistory now c st) = Some e
    /\ e !! "timestamp" = Some (VString now)
    /\ dom e = dom c
    /\ size e = size c
    /\ (forall k : string, k <> "timestamp" -> e !! k = c !! k).
Proof.
  intros Hold. exists (<["timestamp" := VString now]> c).
  split; [unfold history_get; rewrite saveToHistory_history; reflexivity|].
  split; [apply lookup_insert_eq|].
  assert (Hdom : dom (<["timestamp" := VString now]> c) = dom c).
  { rewrite dom_insert_L. apply (elem_of_dom_2 (D := gset string)) in Hold. set_solver. }
  split; [exact Hdom|].
  split; [rewrite <- !size_dom, Hdom; reflexivity|].
  intros k Hk. apply lookup_insert_ne. congruence.
Qed.

Lemma get_insert_ne (o : gmap string value) k k' v :
  k <> k' -> get (<[k := v]> o) k' = get o k'.
Proof. intros Hk. unfold get. rewrite lookup_insert_ne by exact Hk. reflexivity. Qed.

Lemma reinjected_historyEntry now c : reinjected (historyEntry now c) = reinjected c.
Proof.
  unfold reinjected, historyEntry. rewrite !get_insert_ne by discriminate. reflexivity.
Qed.

Lemma reinjected_wheel_entry r : reinjected (wheel_entry r) = wheel_entry r.
Proof.
  unfold reinjected, wheel_entry, get.
  rewrite lookup_insert_eq, lookup_insert_ne by discriminate.
  rewrite lookup_singleton_eq. reflexivity.
Qed.

Lemma addRestaurantToWheel_last restaurant st :
  last (options (addRestaurantToWheel restaurant st)) = Some (reinjected restaurant).
Proof. unfold addRestaurantToWheel; cbn [options]. apply last_snoc. Qed.

(** X10.  "Add to Wheel" on a history item puts an object with the keys
    [name] and [mapUrl] only, taken from the entry, at the end of the wheel
    and leaves the log alone; on an index past the log it throws.  A wheel
    option saved by [saveToHistory] and added back from index 0 is the same
    option again, its timestamp dropped. *)
Theorem addFromHistory_roundtrip (now : string) (r : restaurant) (st : state) :
  (forall i, length (restaurantHistory st) <= i -> addFromHistory i st = None)
  /\ (forall i e, history_get i st = Some e ->
        exists st', addFromHistory i st = Some st'
          /\ last (options st') = Some (reinjected e)
          /\ dom (reinjected e) = ({[ "name"; "mapUrl" ]} : gset string)
          /\ restaurantHistory st' = restaurantHistory st)
  /\ exists st', addFromHistory 0 (saveToHistory now (wheel_entry r) st) = Some st'
       /\ last (options st') = Some (wheel_entry r).
Proof.
  split; [|split].
  - intros i Hi. unfold addFromHistory, history_get.
    rewrite (lookup_ge_None_2 _ _ Hi). reflexivity.
  - intros i e He. unfold addFromHistory. rewrite He. cbn.
    eexists. split; [reflexivity|]. split; [apply addRestaurantToWheel_last|].
    split; [apply reinjected_dom|reflexivity].
  - unfold addFromHistory, history_get. rewrite saveToHistory_history. cbn.
    eexists. split; [reflexivity|].
    rewrite addRestaurantToWheel_last.
    change (<["timestamp" := VString now]> (wheel_entry r))
      with (historyEntry now (wheel_entry r)).
    rewrite reinjected_historyEntry, reinjected_wheel_entry. reflexivity.
Qed.

Lemma perform_bounds engine bits st a :
  length (options st) <= 8 -> length (restaurantHistory st) <= 20 ->
  length (options (perform engine bits st a)) <= 8
  /\ length (restaurantHistory (perform engine bits st a)) <= 20.
Proof.
  intros Hw Hh. destruct a as [random rs|restaurant|now restaurant]; cbn [perform].
  - split; [apply updateWheel_at_most_8|exact Hh].
  - split; [apply addRestaurantToWheel_at_most_8; exact Hw|exact Hh].
  - split; [exact Hw|]. rewrite saveToHistory_history, length_take. lia.
Qed.

(** X11.  Whatever the engine and the draws, no run of wheel rebuilds, adds
    to the wheel and saves takes the wheel past 8 options or the log past 20
    entries, once they are within these bounds. *)
Theorem wheel_and_history_stay_bounded (engine : nat -> sorter) (bits : N)
    (actions : list action) (st : state) :
  length (options st) <= 8 -> length (restaurantHistory st) <= 20 ->
  length (options (perform_all engine bits actions st)) <= 8
  /\ length (restaurantHistory (perform_all engine bits actions st)) <= 20.
Proof.
  revert st. induction actions as [|a actions IH]; intros st Hw Hh; [tauto|].
  cbn. destruct (perform_bounds engine bits st a Hw Hh) as [Hw' Hh'].
  apply (IH (perform engine bits st a) Hw' Hh').
Qed.

Lemma wheel_names (l : list restaurant) :
  (fun o : gmap string value => o !! "name") <$> (wheel_entry <$> l)
  = (fun r => Some (VString (name r))) <$> l.
Proof.
  rewrite <- list_fmap_compose. apply list_fmap_ext. intros _ r _. cbn.
  unfold wheel_entry. apply lookup_insert_eq.
Qed.

Lemma NoDup_wheel_names (l : list restaurant) :
  NoDup (name <$> l) ->
  NoDup ((fun o : gmap string value => o !! "name") <$> (wheel_entry <$> l)).
Proof.
  intros Hnd. rewrite wheel_names.
  change (fun r => Some (VString (name r))) with ((fun n => Some (VString n)) ∘ name).
  rewrite list_fmap_compose. apply NoDup_fmap_2; [|exact Hnd].
  intros a b Hab. injection Hab as ->. reflexivity.
Qed.

Lemma updateWheel_distinct engine bits random rs st :
  sorter_ok (length rs) (engine (length rs)) = true ->
  NoDup (name <$> rs) ->
  NoDup ((fun o : gmap string value => o !! "name")
           <$> options (updateWheel engine bits random rs st)).
Proof.
  intros Hok Hnd. rewrite updateWheel_unfold. apply NoDup_wheel_names.
  assert (Hsub : sublist (name <$> take 8 (shuffle engine bits random rs))
                         (name <$> shuffle engine bits random rs))
    by apply fmap_sublist, sublist_take.
  assert (Hshuffled : NoDup (name <$> shuffle engine bits random rs))
    by (rewrite (shuffle_Permutation engine bits random rs Hok); exact Hnd).
  eauto using sublist_NoDup.
Qed.

(** X12.  With at most 8 candidates and a sort that rearranges, the wheel
    shows every candidate once: its options are the candidates' entries in
    some order. *)
Theorem updateWheel_shows_all_of_few (engine : nat -> sorter) (bits : N)
    (random : nat -> N) (rs : list restaurant) (st : state) :
  length rs <= 8 ->
  sorter_ok (length rs) (engine (length rs)) = true ->
  options (updateWheel engine bits random rs st) ≡ₚ wheel_entry <$> rs
  /\ forall r, r ∈ rs -> wheel_entry r ∈ options (updateWheel engine bits random rs st).
Proof.
  intros Hlen Hok.
  pose proof (shuffle_Permutation engine bits random rs Hok) as Hperm.
  assert (Hall : options (updateWheel engine bits random rs st) ≡ₚ wheel_entry <$> rs).
  { rewrite updateWheel_unfold, take_ge.
    - rewrite Hperm. reflexivity.
    - rewrite (Permutation_length Hperm). exact Hlen. }
  split; [exact Hall|]. intros r Hr. rewrite Hall. apply list_elem_of_fmap_2. exact Hr.
Qed.

Lemma process_total toS toF round settings elements :
  is_Some (process toS toF round settings elements).
Proof.
  destruct elements as [[|e es]|]; [eauto| |eauto]. rewrite process_nonempty.
  destruct (List.filter is_named_restaurant (e :: es)) as [|e0 named] eqn:Hfilter; [eauto|].
  destruct (mapM_to_restaurant_total toS toF settings (e0 :: named)) as [l Hl].
  { intros x Hx. apply list_elem_of_In in Hx. rewrite <- Hfilter in Hx.
    apply filter_In in Hx. tauto. }
  rewrite Hl. cbn. eauto.
Qed.

Lemma process_Restaurants_distinct toS toF round settings elements l :
  process toS toF round settings elements = Some (Restaurants l) -> NoDup (name <$> l).
Proof.
  destruct elements as [[|e es]|]; [discriminate| |discriminate].
  rewrite process_nonempty.
  destruct (List.filter is_named_restaurant (e :: es)); [discriminate|].
  destruct (mapM _ _); [|discriminate]. cbn. intros [= <-]. apply dedup_NoDup.
Qed.

(** X13.  A refresh never throws and never touches the log.  When the
    response has no named restaurant the wheel stays as it was; otherwise the
    wheel is rebuilt from the list: at most 8 options, no two with the same
    name, each the entry of a restaurant of the list. *)
Theorem refresh_rebuilds_or_keeps (toS : float -> string)
    (toF : float -> nat -> string) (round : Q -> number) (engine : nat -> sorter)
    (bits : N) (random : nat -> N) (settings : Settings.t)
    (elements : option (list element)) (st : state) :
  (forall n, sorter_ok n (engine n) = true) ->
  exists st',
    refresh toS toF round engine bits random settings elements st = Some st'
    /\ restaurantHistory st' = restaurantHistory st
    /\ ((st' = st
         /\ (process toS toF round settings elements = Some NoRestaurants
             \/ process toS toF round settings elements = Some NoNamedRestaurants))
        \/ exists l,
             process toS toF round settings elements = Some (Restaurants l)
             /\ length (options st') = length l `min` 8
             /\ NoDup ((fun o : gmap string value => o !! "name") <$> options st')
             /\ forall o, o ∈ options st' -> exists r, r ∈ l /\ o = wheel_entry r).
Proof.
  intros Hok. unfold refresh.
  destruct (process_total toS toF round settings elements) as [[| |l] Hp]; rewrite Hp.
  - exists st. split; [reflexivity|]. split; [reflexivity|]. left. tauto.
  - exists st. split; [reflexivity|]. split; [reflexivity|]. left. tauto.
  - eexists. split; [reflexivity|]. split; [reflexivity|]. right. exists l.
    split; [reflexivity|]. split; [apply updateWheel_length, Hok|].
    split; [apply updateWheel_distinct;
            [apply Hok|eapply process_Restaurants_distinct; exact Hp]|].
    intros o Ho. rewrite updateWheel_unfold in Ho.
    apply list_elem_of_fmap in Ho as (r & -> & Hr). exists r. split; [|reflexivity].
    rewrite <- (shuffle_Permutation engine bits random l (Hok _)).
    eapply subseteq_take. exact Hr.
Qed.

(** X14.  [addRestaurantToWheel] does not look for the restaurant on the
    wheel: with room left, adding one whose entry is already there leaves the
    wheel with that entry twice. *)
Theorem addRestaurantToWheel_repeats (restaurant : gmap string value) (st : state) :
  length (options st) < 8 ->
  reinjected restaurant ∈ options st ->
  ~ NoDup (options (addRestaurantToWheel restaurant st))
  /\ exists i j, i < j
       /\ options (addRestaurantToWheel restaurant st) !! i = Some (reinjected restaurant)
       /\ options (addRestaurantToWheel restaurant st) !! j = Some (reinjected restaurant).
Proof.
  intros Hlen Hin.
  assert (Hadd : options (addRestaurantToWheel restaurant st)
                 = options st ++ [reinjected restaurant]).
  { unfold addRestaurantToWheel; cbn [options]. case_decide; [lia|reflexivity]. }
  rewrite Hadd. split.
  - intros Hnd. apply NoDup_app in Hnd as (_ & Hdisj & _).
    apply (Hdisj _ Hin). left.
  - apply list_elem_of_lookup in Hin as [i Hi].
    exists i, (length (options st)). split; [eapply lookup_lt_Some; exact Hi|].
    split; [apply lookup_app_l_Some; exact Hi|]. apply list_lookup_middle. reflexivity.
Qed.

Lemma restaurantDetails_snoc rs r :
  restaurantDetails_by_name (rs ++ [r])
  = <[name r := r]> (restaurantDetails_by_name rs).
Proof. unfold restaurantDetails_by_name. rewrite foldl_snoc. reflexivity. Qed.

Lemma restaurantDetails_keys rs n :
  is_Some (restaurantDetails_by_name rs !! n) <-> n ∈ name <$> rs.
Proof.
  induction rs as [|r rs IH] using rev_ind.
  - unfold restaurantDetails_by_name; cbn. rewrite lookup_empty, elem_of_nil.
    split; [intros [? ?]; discriminate|tauto].
  - rewrite restaurantDetails_snoc, fmap_app, elem_of_app, <- IH. cbn.
    rewrite list_elem_of_singleton. destruct (decide (name r = n)) as [->|Hne].
    + rewrite lookup_insert_eq. split; [tauto|eauto].
    + rewrite lookup_insert_ne by exact Hne. split; [tauto|]. intros [H|H]; [exact H|congruence].
Qed.

(** X15.  For a list with no restaurant named [__proto__], the table
    [restaurantDetails] built by the [reduce] has one own key per name,
    holding the last restaurant of that name; on a list of distinct names, as
    the deduplication leaves it, every restaurant is found under its name and
    none is overwritten. *)
Theorem restaurantDetails_finds_every_restaurant (rs : list restaurant) :
  "__proto__" ∉ name <$> rs ->
  (forall n, is_Some (restaurantDetails_by_name rs !! n) <-> n ∈ name <$> rs)
  /\ (forall before r after, rs = before ++ r :: after ->
        name r ∉ name <$> after ->
        restaurantDetails_by_name rs !! name r = Some r)
  /\ (forall r, r ∈ dedup rs -> restaurantDetails_by_name (dedup rs) !! name r = Some r)
  /\ size (restaurantDetails_by_name (dedup rs)) = length (dedup rs).
Proof.
  intros _.
  assert (Hlast : forall l before r after, l = before ++ r :: after ->
            name r ∉ name <$> after -> restaurantDetails_by_name l !! name r = Some r).
  { intros l before r after -> Hafter.
    induction after as [|x after IH] using rev_ind.
    - rewrite restaurantDetails_snoc. apply lookup_insert_eq.
    - rewrite fmap_app, elem_of_app in Hafter. cbn in Hafter.
      rewrite list_elem_of_singleton in Hafter.
      change (before ++ r :: after ++ [x]) with (before ++ (r :: after) ++ [x]).
      rewrite app_assoc, restaurantDetails_snoc.
      rewrite lookup_insert_ne by (intros Heq; apply Hafter; right; congruence).
      apply IH. tauto. }
  assert (Hdistinct : forall l, NoDup (name <$> l) ->
            (forall r, r ∈ l -> restaurantDetails_by_name l !! name r = Some r)
            /\ size (restaurantDetails_by_name l) = length l).
  { intros l Hnd. split.
    - intros r Hr. apply list_elem_of_split in Hr as (before & after & ->).
      apply (Hlast _ before r after eq_refl).
      rewrite fmap_app, fmap_cons in Hnd. apply NoDup_app in Hnd as (_ & _ & Hnd).
      apply NoDup_cons in Hnd. tauto.
    - induction l as [|r l IH] using rev_ind; [reflexivity|].
      rewrite fmap_app in Hnd. apply NoDup_app in Hnd as (Hl & Hfresh & _).
      rewrite restaurantDetails_snoc, map_size_insert_None.
      + rewrite length_app, (IH Hl). cbn. lia.
      + apply eq_None_not_Some. rewrite restaurantDetails_keys.
        intros Hin. apply (Hfresh _ Hin). left. }
  split; [apply restaurantDetails_keys|]. split; [apply Hlast|].
  apply Hdistinct, dedup_NoDup.
Qed.

Lemma to_restaurant_mapUrl toS toF settings e r :
  to_restaurant toS toF settings e = Some r -> truthy (mapUrl r) = true.
Proof.
  unfold to_restaurant. intros Hr.
  destruct (el_tags e) as [tags|]; [|discriminate]. cbn in Hr.
  destruct (tags !! "name"); [|discriminate]. cbn in Hr.
  destruct (String_repeat "$" (priceLevel (tags !! "price"))); [|discriminate].
  cbn in Hr. injection Hr as <-. reflexivity.
Qed.

Lemma get_saved_mapUrl now r :
  get (<["timestamp" := VString now]> (wheel_entry r)) "mapUrl" = VString (mapUrl r).
Proof.
  rewrite get_insert_ne by discriminate. unfold wheel_entry, get.
  rewrite lookup_insert_ne by discriminate. rewrite lookup_singleton_eq. reflexivity.
Qed.

(** X16.  A click on "View on Map" runs both registered listeners.  For a
    wheel option of a fetched restaurant that was saved to the log, that is
    [window.open] twice on the restaurant's map URL.  For an entry whose
    [mapUrl] is missing or empty the first call gets that value and the
    second the URL built from the entry's [lat] and [lng]; on an index past
    the log both listeners throw. *)
Theorem view_on_map_opens_twice (toS : float -> string)
    (toF : float -> nat -> string) (settings : Settings.t) (e : element)
    (r : restaurant) (now : string) (st : state) :
  to_restaurant toS toF settings e = Some r ->
  view_on_map_click toS 0 (saveToHistory now (wheel_entry r) st)
    = Some [VString (mapUrl r); VString (mapUrl r)]
  /\ (forall index entry,
        history_get index st = Some entry ->
        value_truthy (get entry "mapUrl") = false ->
        view_on_map_click toS index st
        = Some [get entry "mapUrl";
                VString ("https://www.openstreetmap.org/?mlat="
                           +:+ interpolate toS (get entry "lat") +:+ "&mlon="
                           +:+ interpolate toS (get entry "lng") +:+ "&zoom=18")])
  /\ (forall index, length (restaurantHistory st) <= index ->
        view_on_map_click toS index st = None).
Proof.
  intros Hr. split; [|split].
  - assert (Hget : history_get 0 (saveToHistory now (wheel_entry r) st)
                   = Some (<["timestamp" := VString now]> (wheel_entry r))).
    { unfold history_get. rewrite saveToHistory_history. reflexivity. }
    unfold view_on_map_click. rewrite Hget. cbn [mbind option_bind].
    rewrite !get_saved_mapUrl. cbn [value_truthy].
    rewrite (to_restaurant_mapUrl _ _ _ _ _ Hr). reflexivity.
  - intros index entry Hentry Hfalsy. unfold view_on_map_click.
    rewrite Hentry. cbn [mbind option_bind]. rewrite Hfalsy. reflexivity.
  - intros index Hindex. unfold view_on_map_click, history_get.
    rewrite (lookup_ge_None_2 _ _ Hindex). reflexivity.
Qed.

(** ** Instances of the further properties *)

Lemma process_restaurants_wellformed_holds :
  process plain_toString plain_toFixed exact_round defaultSettings
    (Some [sample_element "A" "$$"]) = Some (Restaurants [converted_sample])
  /\ NoDup (name <$> [converted_sample]).
Proof.
  assert (Hp : process plain_toString plain_toFixed exact_round defaultSettings
                 (Some [sample_element "A" "$$"]) = Some (Restaurants [converted_sample]))
    by by_computation.
  split; [exact Hp|].
  apply (process_restaurants_wellformed plain_toString plain_toFixed exact_round
           defaultSettings [sample_element "A" "$$"] [converted_sample] Hp).
Defined.

Lemma filter_then_dedup_names_holds :
  (Number_ exact_round <$> split "2,3" ","%char) !! 0 = Some (Finite 2%Q)
  /\ (Number_ exact_round <$> split "2,3" ","%char) !! 1 = Some (Finite 3%Q)
  /\ ("A" ∈ name <$> dedup (price_filter exact_round (Some "2,3")
                              [sample "A" "$$$$"; sample "A" "$$"])
      <-> exists r, r ∈ [sample "A" "$$$$"; sample "A" "$$"] /\ name r = "A"
            /\ (2 <= inject_Z (Z.of_nat (String.length (price r))))%Q
            /\ (inject_Z (Z.of_nat (String.length (price r))) <= 3)%Q).
Proof.
  assert (H0 : (Number_ exact_round <$> split "2,3" ","%char) !! 0 = Some (Finite 2%Q))
    by by_computation.
  assert (H1 : (Number_ exact_round <$> split "2,3" ","%char) !! 1 = Some (Finite 3%Q))
    by by_computation.
  split; [exact H0|]. split; [exact H1|].
  apply (filter_then_dedup_names exact_round [sample "A" "$$$$"; sample "A" "$$"]
           "2,3" 2%Q 3%Q "A"); [discriminate|exact H0|exact H1].
Defined.

Lemma price_filter_without_comma_holds :
  includes "3" ","%char = false
  /\ price_filter exact_round (Some "3") three_candidates = [].
Proof.
  assert (Hcomma : includes "3" ","%char = false) by reflexivity.
  split; [exact Hcomma|].
  apply (price_filter_without_comma exact_round "3" three_candidates);
    [discriminate|exact Hcomma].
Defined.

Lemma default_range_keeps_untagged_holds :
  exact_round 2%Q = Finite 2%Q /\ exact_round 3%Q = Finite 3%Q
  /\ ((forall r, r ∈ price_filter exact_round (Settings.price defaultSettings) three_candidates
                 <-> r ∈ three_candidates /\ 2 <= String.length (price r) <= 3)
      /\ to_restaurant plain_toString plain_toFixed defaultSettings (way_element "W")
         <> None).
Proof.
  split; [reflexivity|]. split; [reflexivity|]. split.
  - apply (default_range_keeps_untagged plain_toString plain_toFixed exact_round
             defaultSettings three_candidates eq_refl eq_refl).
  - vm_compute. discriminate.
Defined.

Lemma saveAll_keeps_latest_20_holds :
  length (restaurantHistory sample_state) <= 20
  /\ restaurantHistory (saveAll sample_calls sample_state)
     = take 20 (rev (entries sample_calls) ++ restaurantHistory sample_state).
Proof.
  assert (Hlen : length (restaurantHistory sample_state) <= 20) by (cbn; lia).
  split; [exact Hlen|].
  exact (proj1 (saveAll_keeps_latest_20 sample_calls sample_state Hlen)).
Defined.

Lemma saveToHistory_replaces_timestamp_holds :
  saved_entry !! "timestamp" = Some (VString "2024-05-01T12:00:00.000Z")
  /\ exists e : gmap string value,
       history_get 0 (saveToHistory "2024-06-01T08:00:00.000Z" saved_entry sample_state)
         = Some e
       /\ e !! "timestamp" = Some (VString "2024-06-01T08:00:00.000Z")
       /\ dom e = dom saved_entry
       /\ size e = size saved_entry
       /\ (forall k : string, k <> "timestamp" -> e !! k = saved_entry !! k).
Proof.
  assert (Hold : saved_entry !! "timestamp" = Some (VString "2024-05-01T12:00:00.000Z"))
    by by_computation.
  split; [exact Hold|].
  apply (saveToHistory_replaces_timestamp _ saved_entry _ sample_state Hold).
Defined.

Lemma wheel_and_history_stay_bounded_holds :
  length (options sample_state) <= 8
  /\ length (restaurantHistory sample_state) <= 20
  /\ length (options (perform_all insertion_sort 53 sample_actions sample_state)) <= 8
  /\ length (restaurantHistory (perform_all insertion_sort 53 sample_actions sample_state))
     <= 20.
Proof.
  assert (Hw : length (options sample_state) <= 8) by (cbn; lia).
  assert (Hh : length (restaurantHistory sample_state) <= 20) by (cbn; lia).
  split; [exact Hw|]. split; [exact Hh|].
  apply (wheel_and_history_stay_bounded insertion_sort 53 sample_actions sample_state Hw Hh).
Defined.

Lemma updateWheel_shows_all_of_few_holds :
  length three_candidates <= 8
  /\ sorter_ok 3 (insertion_sort 3) = true
  /\ options (updateWheel insertion_sort 53 (fun _ => 0%N) three_candidates sample_state)
     ≡ₚ wheel_entry <$> three_candidates.
Proof.
  assert (Hlen : length three_candidates <= 8) by (cbn; lia).
  assert (Hok : sorter_ok (length three_candidates) (insertion_sort (length three_candidates))
                = true) by by_computation.
  split; [exact Hlen|]. split; [exact Hok|].
  apply (updateWheel_shows_all_of_few insertion_sort 53 (fun _ => 0%N)
           three_candidates sample_state Hlen Hok).
Defined.

Lemma refresh_rebuilds_or_keeps_holds :
  exists st',
    refresh plain_toString plain_toFixed exact_round insertion_sort 53 (fun _ => 0%N)
      defaultSettings (Some [sample_element "A" "$$"]) sample_state = Some st'
    /\ restaurantHistory st' = restaurantHistory sample_state.
Proof.
  destruct (refresh_rebuilds_or_keeps plain_toString plain_toFixed exact_round
              insertion_sort 53 (fun _ => 0%N) defaultSettings
              (Some [sample_element "A" "$$"]) sample_state insertion_sort_ok)
    as (st' & Hrefresh & Hhistory & _).
  exists st'. split; [exact Hrefresh|exact Hhistory].
Defined.

Lemma addRestaurantToWheel_repeats_holds :
  length (options one_option_wheel) < 8
  /\ reinjected (sample_option "A") ∈ options one_option_wheel
  /\ ~ NoDup (options (addRestaurantToWheel (sample_option "A") one_option_wheel)).
Proof.
  assert (Hlen : length (options one_option_wheel) < 8) by (cbn; lia).
  assert (Hin : reinjected (sample_option "A") ∈ options one_option_wheel).
  { replace (reinjected (sample_option "A")) with (sample_option "A") by by_computation.
    left. }
  split; [exact Hlen|]. split; [exact Hin|].
  apply (addRestaurantToWheel_repeats (sample_option "A") one_option_wheel Hlen Hin).
Defined.

Lemma restaurantDetails_finds_every_restaurant_holds :
  ("__proto__" ∉ name <$> three_candidates)
  /\ size (restaurantDetails_by_name (dedup three_candidates))
     = length (dedup three_candidates).
Proof.
  assert (Hproto : "__proto__" ∉ name <$> three_candidates).
  { cbn. rewrite !elem_of_cons, elem_of_nil. intros [H|[H|[H|[]]]]; discriminate H. }
  split; [exact Hproto|].
  apply (restaurantDetails_finds_every_restaurant three_candidates Hproto).
Defined.

Lemma view_on_map_opens_twice_holds :
  to_restaurant plain_toString plain_toFixed defaultSettings (sample_element "A" "$$")
    = Some converted_sample
  /\ view_on_map_click plain_toString 0
       (saveToHistory "2024-05-01T12:00:00.000Z" (wheel_entry converted_sample) sample_state)
     = Some [VString (mapUrl converted_sample); VString (mapUrl converted_sample)].
Proof.
  assert (Hr : to_restaurant plain_toString plain_toFixed defaultSettings
                 (sample_element "A" "$$") = Some converted_sample) by by_computation.
  split; [exact Hr|].
  apply (view_on_map_opens_twice plain_toString plain_toFixed defaultSettings
           (sample_element "A" "$$") converted_sample _ sample_state Hr).
Defined.
